(** * Set diffing and set materialisation of the BookBrainz data layer

    A shallow embedding of the set utilities: the comparator builder
    [getComparisonFunc], the three differ functions [getUnchangedItems],
    [getAddedItems] and [getRemovedItems], and the two materialisers
    [createNewSetWithItems] and
    [createNewRelationshipAttributeSetWithItems].

    The lodash helpers the file calls ([_.uniqWith], [_.intersectionWith],
    [_.differenceWith], [_.map] with a property name, [_.omit], [_.pick],
    [_.isEmpty]) are embedded after lodash 4.17, loop by loop; what
    [_.map] and [_.omit] do with a name that may be a path is a parameter
    ([Lodash.Paths]).  The
    persistence layer (the ORM models and collections) is an external
    collaborator; it is embedded as an in-memory store that hands out row
    ids from a sequence and records every call made to it.

    Besides the set utilities the file embeds three entity and editor
    helpers: [getAdditionalEntityProps], [recursivelyGetRedirectBBID]
    (with the database as a parameter and fuel for its unbounded
    recursion) and [deleteEditorByMetaBrainzID] (as the list of queries it
    runs). *)

From Stdlib Require Import Ascii.
From stdpp Require Import gmap strings list pretty.

#[local] Set Warnings "-register-all,-clear-no-such-hyp".

(** ** JavaScript values and objects *)

(** The values a set item can hold in a field.  Numbers are the integer
    row and type ids of the schema, together with [NaN], the one number
    strict equality does not relate to itself.  An object value carries
    the reference that identifies it next to its own properties; strict
    equality looks at the reference alone. *)
Inductive value : Type :=
  | VUndefined
  | VNull
  | VBool (b : bool)
  | VNum (n : Z)
  | VNaN
  | VStr (s : string)
  | VObj (ref : positive) (props : gmap string value).

(** A plain data object: its own properties by name. *)
Abbreviation object := (gmap string value).

(** [obj[field]]: reading a property that is not there gives [undefined]. *)
Definition get (obj : object) (field : string) : value :=
  default VUndefined (obj !! field).

(** [field in obj], for the own properties this embedding keeps. *)
Definition has (obj : object) (field : string) : bool :=
  bool_decide (is_Some (obj !! field)).

(** [a === b] *)
Definition strict_eq (a b : value) : bool :=
  match a, b with
  | VUndefined, VUndefined => true
  | VNull, VNull => true
  | VBool x, VBool y => bool_decide (x = y)
  | VNum x, VNum y => bool_decide (x = y)
  | VStr x, VStr y => bool_decide (x = y)
  | VObj r _, VObj r' _ => bool_decide (r = r')
  | _, _ => false
  end.

(** [a !== b] *)
Definition strict_neq (a b : value) : bool := negb (strict_eq a b).

(** [value.field] on an arbitrary value: a [TypeError] (here [None]) on
    [undefined] and [null], the property of an object, and [undefined] on
    the primitives, whose wrappers have no data properties of interest. *)
Definition member (v : value) (field : string) : option value :=
  match v with
  | VUndefined | VNull => None
  | VObj _ props => Some (get props field)
  | _ => Some VUndefined
  end.

(** ** The comparator builder *)

(** [getComparisonFunc(compareFields)] returns the closure [Cmp]; its
    [for ... of] loop leaves with [false] at the first named field on
    which the two objects differ. *)
Definition getComparisonFunc (compareFields : list string)
  : object → object → bool :=
  fun obj other =>
    (fix Cmp (fields : list string) : bool :=
       match fields with
       | [] => true
       | field :: fields' =>
           if strict_neq (get obj field) (get other field) then false
           else Cmp fields'
       end) compareFields.

(** ** The lodash array helpers *)

Module Lodash.
Section Arrays.
Context {A : Type}.
Implicit Types (array values other result : list A).
Implicit Types (comparator : A → A → bool).

(** [arrayIncludesWith(array, value, comparator)]: the probe is always
    the first argument of the comparator. *)
Fixpoint arrayIncludesWith array (value : A) comparator : bool :=
  match array with
  | [] => false
  | x :: array' =>
      if comparator value x then true
      else arrayIncludesWith array' value comparator
  end.

(** The [while] loop of [baseUniq] in its comparator branch, where
    [seen] is [result] itself. *)
Fixpoint baseUniq_loop comparator array result : list A :=
  match array with
  | [] => result
  | value :: array' =>
      if negb (arrayIncludesWith result value comparator)
      then baseUniq_loop comparator array' (result ++ [value])
      else baseUniq_loop comparator array' result
  end.

Definition baseUniq array comparator : list A :=
  baseUniq_loop comparator array [].

(** [_.uniqWith(array, comparator)] *)
Definition uniqWith array comparator : list A :=
  if bool_decide (length array ≠ 0%nat) then baseUniq array comparator
  else [].

(** The [while] loop of [baseDifference] in its comparator branch. *)
Fixpoint baseDifference_loop comparator values array result : list A :=
  match array with
  | [] => result
  | value :: array' =>
      if negb (arrayIncludesWith values value comparator)
      then baseDifference_loop comparator values array' (result ++ [value])
      else baseDifference_loop comparator values array' result
  end.

Definition baseDifference array values comparator : list A :=
  if bool_decide (length array = 0%nat) then []
  else baseDifference_loop comparator values array [].

(** [_.differenceWith(array, values, comparator)] *)
Definition differenceWith array values comparator : list A :=
  baseDifference array values comparator.

(** The [outer] loop of [baseIntersection] for two arrays and a
    comparator (no caches): it runs while items of the first array are
    left and [result.length < maxLength]; an item is pushed when
    [result] does not include it yet and the other array does. *)
Fixpoint baseIntersection_loop comparator other (maxLength : nat)
    array result : list A :=
  match array with
  | [] => result
  | value :: array' =>
      if bool_decide (length result < maxLength)%nat then
        if negb (arrayIncludesWith result value comparator) then
          if negb (arrayIncludesWith other value comparator)
          then baseIntersection_loop comparator other maxLength array' result
          else baseIntersection_loop comparator other maxLength array'
                 (result ++ [value])
        else baseIntersection_loop comparator other maxLength array' result
      else result
  end.

(** [maxLength] is the least length among the arrays. *)
Definition baseIntersection array other comparator : list A :=
  baseIntersection_loop comparator other
    (length array `min` length other)%nat array [].

(** [_.intersectionWith(array, other, comparator)] *)
Definition intersectionWith array other comparator : list A :=
  baseIntersection array other comparator.
End Arrays.

(** [_.isEmpty] on an array *)
Definition isEmpty {A} (array : list A) : bool :=
  bool_decide (length array = 0%nat).

(** A property name with no dot and no opening bracket.  lodash's [isKey]
    takes every such name as a key; any other name may be a path. *)
Fixpoint plain_key (name : string) : bool :=
  match name with
  | EmptyString => true
  | String c name' =>
      negb (Ascii.eqb c "."%char) && negb (Ascii.eqb c "["%char)
      && plain_key name'
  end.

(** For a name that is not a plain key, what lodash reads from an object
    ([baseGet]: a key the object has after all, or a path into nested
    values) and what it leaves of an object ([baseUnset] on a deep clone)
    are parameters of the embedding. *)
Class Paths := {
  get_path : object → string → value;
  omit_path : object → string → object
}.

(** [_.map(collection, key)]: the property of every object *)
Definition map_property {paths : Paths} (collection : list object)
    (key : string) : list value :=
  (λ obj, if plain_key key then get obj key else get_path obj key)
  <$> collection.

(** [_.omit(obj, key)]: a copy of the object without the property *)
Definition omit {paths : Paths} (obj : object) (key : string) : object :=
  if plain_key key then delete key obj else omit_path obj key.

(** [_.pick(obj, key)] for a key that is a plain key *)
Definition pick (obj : object) (key : string) : object :=
  match obj !! key with
  | Some v => {[ key := v ]}
  | None => ∅
  end.
End Lodash.

(** ** The set differ *)

Section Differ.
Context {Item : Type}.
Implicit Types (oldSet newSet : list Item).
Implicit Types (comparisonFunc : Item → Item → bool).

Definition getUnchangedItems oldSet newSet comparisonFunc : list Item :=
  Lodash.uniqWith
    (Lodash.intersectionWith oldSet newSet comparisonFunc) comparisonFunc.

Definition getAddedItems oldSet newSet comparisonFunc : list Item :=
  Lodash.uniqWith
    (Lodash.differenceWith newSet oldSet comparisonFunc) comparisonFunc.

Definition getRemovedItems oldSet newSet comparisonFunc : list Item :=
  Lodash.uniqWith
    (Lodash.differenceWith oldSet newSet comparisonFunc) comparisonFunc.

Definition removeItemsFromSet := getRemovedItems.
End Differ.

(** ** The persistence layer

    Models, collections and the calls the materialisers make on them.
    Every call is appended to [calls]; a call that inserts a row takes
    the row's id from [next_id].  Every call succeeds: storage failures,
    and relation names the model does not declare, reject the promise in
    the ORM and are the caller's concern (the caller rolls the transaction
    back); they are not part of this store. *)

(** The opaque transaction handle, passed through to every call. *)
Definition Transaction : Type := nat.

(** A registered model class, by its name in the ORM. *)
Definition model_class : Type := string.

(** The part of the [orm] object the materialisers read. *)
Record ORM := { RelationshipAttributeTextValue : model_class }.

(** A model instance, by its attributes. *)
Record model := Model { attributes : object }.

(** The collection of a relation of a saved model. *)
Record collection := Collection { parent : model; relation : string }.

Inductive call : Type :=
  | ModelSave (cls : model_class) (attrs : object) (method : option string)
      (transacting : Transaction) (id : Z)
  | CollectionFetch (owner : value) (rel : string)
      (transacting : Transaction)
  | CollectionAttach (owner : value) (rel : string) (ids : list value)
      (transacting : Transaction)
  | CollectionCreate (owner : value) (rel : string) (attrs : object)
      (transacting : Transaction) (id : Z).

Record store := Store { next_id : Z; calls : list call }.

Inductive js_error : Type :=
  | Error (message : string)
  | TypeError (message : string).

Inductive outcome (A : Type) : Type :=
  | Resolved (a : A)
  | Rejected (e : js_error).
Arguments Resolved {A} a.
Arguments Rejected {A} e.

(** An [async] computation: it runs on the store and settles. *)
Definition Promise (A : Type) : Type := store → outcome A * store.

Definition resolve {A} (a : A) : Promise A := fun s => (Resolved a, s).

Definition throw {A} (e : js_error) : Promise A := fun s => (Rejected e, s).

(** [await p; k]: a rejection of [p] leaves the function at once. *)
Definition await {A B} (p : Promise A) (k : A → Promise B) : Promise B :=
  fun s =>
    match p s with
    | (Resolved a, s') => k a s'
    | (Rejected e, s') => (Rejected e, s')
    end.

Notation "'let*' x ':=' p 'in' k" := (await p (fun x => k))
  (at level 10, x name, p at level 100, k at level 200).

(** [Promise.all] over promises whose calls are issued in array order:
    every one of them settles, whether or not another one rejects, and
    the result rejects with the first rejection when there is one. *)
Fixpoint promise_all {A} (ps : list (Promise A)) : Promise (list A) :=
  match ps with
  | [] => resolve []
  | p :: ps' =>
      fun s =>
        let '(r, s1) := p s in
        let '(rs, s2) := promise_all ps' s1 in
        (match r, rs with
         | Rejected e, _ => Rejected e
         | Resolved _, Rejected e => Rejected e
         | Resolved a, Resolved l => Resolved (a :: l)
         end, s2)
  end.

(** An [async] callback as [_.map] leaves it: it has run up to its first
    [await], so the call awaited there is issued, and it resumes with the
    result of that call. *)
Record async_callback (X A : Type) := AsyncCallback {
  issued : Promise X;
  resumed : X → Promise A
}.
Arguments AsyncCallback {X A} issued resumed.
Arguments issued {X A} a.
Arguments resumed {X A} a x.

(** [_.map(items, async callback)]: the first call of every callback is
    issued, in array order, before any callback resumes.  The result is
    the rest of every callback. *)
Fixpoint issue_all {X A} (callbacks : list (async_callback X A)) (s : store)
  : list (Promise A) * store :=
  match callbacks with
  | [] => ([], s)
  | callback :: callbacks' =>
      let '(r, s1) := issued callback s in
      let '(rest, s2) := issue_all callbacks' s1 in
      ((match r with
        | Resolved x => resumed callback x
        | Rejected e => throw e
        end) :: rest, s2)
  end.

(** [Promise.all(_.map(items, async callback))]: once the first calls are
    issued, the callbacks resume in the order these calls settle, which
    is the order they were issued in. *)
Definition promise_all_async {X A} (callbacks : list (async_callback X A))
  : Promise (list A) :=
  fun s =>
    let '(rest, s1) := issue_all callbacks s in
    promise_all rest s1.

Definition log (c : call) (s : store) : store :=
  Store (next_id s) (calls s ++ [c]).

(** [new cls(attrs).save(null, {method, transacting})]: the row is
    inserted and the model gets the generated id. *)
Definition save (cls : model_class) (attrs : object) (method : option string)
    (transacting : Transaction) : Promise model :=
  fun s =>
    let id := next_id s in
    (Resolved (Model (<["id" := VNum id]> attrs)),
     Store (id + 1)%Z (calls s ++ [ModelSave cls attrs method transacting id])).

(** [model.get(name)] *)
Definition model_get (m : model) (name : string) : value :=
  get (attributes m) name.

(** [model.related(name)] *)
Definition related (m : model) (name : string) : collection :=
  Collection m name.

(** [collection.fetch({transacting})] *)
Definition fetch (c : collection) (transacting : Transaction)
  : Promise collection :=
  fun s =>
    (Resolved c,
     log (CollectionFetch (model_get (parent c) "id") (relation c)
            transacting) s).

(** [collection.attach(ids, {transacting})] *)
Definition attach (c : collection) (ids : list value)
    (transacting : Transaction) : Promise collection :=
  fun s =>
    (Resolved c,
     log (CollectionAttach (model_get (parent c) "id") (relation c) ids
            transacting) s).

(** [collection.create(attrs, {transacting})]: a new row of the related
    model, with a generated id, linked to the owner of the collection. *)
Definition create (c : collection) (attrs : object)
    (transacting : Transaction) : Promise model :=
  fun s =>
    let id := next_id s in
    (Resolved (Model (<["id" := VNum id]> attrs)),
     Store (id + 1)%Z
       (calls s ++
        [CollectionCreate (model_get (parent c) "id") (relation c) attrs
           transacting id])).

(** ** The set materialisers *)

(** [itemsAttribute] and [idAttribute] are [None] when the caller left
    them out; [idAttribute] then takes its default.  [!s] holds of a
    string exactly when it is empty. *)
Definition createNewSetWithItems {paths : Lodash.Paths} (orm : ORM)
    (transacting : Transaction)
    (SetModel : model_class) (unchangedItems addedItems : list object)
    (itemsAttribute : option string) (idAttribute : option string)
  : Promise (option model) :=
  let idAttribute := default "id" idAttribute in
  match itemsAttribute with
  | None | Some "" =>
      throw (Error "itemsAttribute must be set in createNewSetWithItems")
  | Some itemsAttribute =>
      if Lodash.isEmpty unchangedItems && Lodash.isEmpty addedItems
      then resolve None
      else
        let* newSet := save SetModel ∅ None transacting in
        let* newSetItemsCollection :=
          fetch (related newSet itemsAttribute) transacting in
        let* newSetItemsCollectionAttached :=
          attach newSetItemsCollection
            (Lodash.map_property unchangedItems idAttribute) transacting in
        let* _ :=
          promise_all
            ((fun ident =>
                create newSetItemsCollectionAttached
                  (Lodash.omit ident idAttribute) transacting)
             <$> addedItems) in
        resolve (Some newSet)
  end.

(** The callback of the relationship-attribute variant after its first
    [await], with the model that was [created]: [value.textValue] is read
    before the value model is built, and throws a [TypeError] when the
    item has no [value]. *)
Definition save_text_value (orm : ORM) (transacting : Transaction)
    (ident : object) (created : model) : Promise model :=
  let value := get ident "value" in
  match member value "textValue" with
  | None => throw (TypeError "Cannot read properties of undefined")
  | Some textValue =>
      let* _ :=
        save (RelationshipAttributeTextValue orm)
          {[ "attributeId" := model_get created "id";
             "textValue" := textValue ]}
          (Some "insert") transacting in
      resolve created
  end.

(** The callback of the relationship-attribute variant: the creation of
    the attribute row is what it awaits first. *)
Definition create_attribute_with_value (orm : ORM)
    (transacting : Transaction) (newSetItemsCollectionAttached : collection)
    (ident : object) : async_callback model model :=
  AsyncCallback
    (create newSetItemsCollectionAttached
       (Lodash.pick ident "attributeType") transacting)
    (save_text_value orm transacting ident).

Definition createNewRelationshipAttributeSetWithItems
    {paths : Lodash.Paths} (orm : ORM)
    (transacting : Transaction) (SetModel : model_class)
    (unchangedItems addedItems : list object)
    (itemsAttribute : option string) (idAttribute : option string)
  : Promise (option model) :=
  let idAttribute := default "id" idAttribute in
  match itemsAttribute with
  | None | Some "" =>
      throw (Error
        "itemsAttribute must be set in createNewRelationshipAttributeSetWithItems")
  | Some itemsAttribute =>
      if Lodash.isEmpty unchangedItems && Lodash.isEmpty addedItems
      then resolve None
      else
        let* newSet := save SetModel ∅ None transacting in
        let* newSetItemsCollection :=
          fetch (related newSet itemsAttribute) transacting in
        let* newSetItemsCollectionAttached :=
          attach newSetItemsCollection
            (Lodash.map_property unchangedItems idAttribute) transacting in
        let* _ :=
          promise_all_async
            (create_attribute_with_value orm transacting
               newSetItemsCollectionAttached
             <$> addedItems) in
        resolve (Some newSet)
  end.

(** ** Vocabulary of the properties *)

Section Vocabulary.
Context {Item : Type}.
Implicit Types (cmp : Item → Item → bool) (O N U A l : list Item).

(** The comparator is an equivalence on the items of [dom]. *)
Definition reflexive_on (dom : list Item) cmp : Prop :=
  ∀ x, x ∈ dom → cmp x x = true.

Definition symmetric_on (dom : list Item) cmp : Prop :=
  ∀ x y, x ∈ dom → y ∈ dom → cmp x y = true → cmp y x = true.

Definition transitive_on (dom : list Item) cmp : Prop :=
  ∀ x y z, x ∈ dom → y ∈ dom → z ∈ dom →
    cmp x y = true → cmp y z = true → cmp x z = true.

Record equivalence_on (dom : list Item) cmp : Prop := {
  cmp_refl : reflexive_on dom cmp;
  cmp_sym : symmetric_on dom cmp;
  cmp_trans : transitive_on dom cmp
}.

(** The items of [l] that [n] is [cmp]-equivalent to, one per position. *)
Definition equivalents cmp (n : Item) l : list Item := List.filter (cmp n) l.

(** No item of [U] is [cmp]-equal to an item of [A], either way round. *)
Definition disjoint_under cmp U A : Prop :=
  ∀ u a, u ∈ U → a ∈ A → cmp u a = false ∧ cmp a u = false.

(** Unchanged and added items split the new collection. *)
Definition partitions_new cmp O N : Prop :=
  let U := getUnchangedItems O N cmp in
  let A := getAddedItems O N cmp in
  disjoint_under cmp U A ∧
  ∀ n, n ∈ N → length (equivalents cmp n (U ++ A)) = 1%nat.

(** Comparing a collection against itself. *)
Definition self_diff cmp O : Prop :=
  getUnchangedItems O O cmp = Lodash.uniqWith O cmp ∧
  getAddedItems O O cmp = [] ∧
  getRemovedItems O O cmp = [].

(** No item is [cmp]-equal to an item before it: what [result] satisfies
    throughout the lodash loops. *)
Fixpoint distinct_under cmp l : Prop :=
  match l with
  | [] => True
  | x :: l' => Forall (λ y, cmp y x = false) l' ∧ distinct_under cmp l'
  end.
End Vocabulary.

(** Two objects agree on [field] under strict equality. *)
Definition agree (a b : object) (field : string) : Prop :=
  strict_eq (get a field) (get b field) = true.

(** [field] is on exactly one of the two objects. *)
Definition one_sided (a b : object) (field : string) : Prop :=
  has a field ≠ has b field.

(** [field] holds a value other than [undefined] on one object and reads
    [undefined] on the other. *)
Definition defined_one_sided (a b : object) (field : string) : Prop :=
  (get a field ≠ VUndefined ∧ get b field = VUndefined) ∨
  (get a field = VUndefined ∧ get b field ≠ VUndefined).

(** The error of the spec's taxonomy for a missing [itemsAttribute]. *)
Definition InvalidArgument (e : js_error) : Prop :=
  ∃ fn, e = Error ("itemsAttribute must be set in " +:+ fn).

(** What the calls of a trace did, by kind. *)
Definition saved_rows (cs : list call) : list (model_class * object * Z) :=
  omap (λ c, match c with
             | ModelSave cls attrs _ _ id => Some (cls, attrs, id)
             | _ => None
             end) cs.

Definition attached_ids (cs : list call) : list value :=
  mjoin (omap (λ c, match c with
                    | CollectionAttach _ _ ids _ => Some ids
                    | _ => None
                    end) cs).

Definition created_rows (cs : list call) : list (object * Z) :=
  omap (λ c, match c with
             | CollectionCreate _ _ attrs _ id => Some (attrs, id)
             | _ => None
             end) cs.

(** The two clauses of the comparator's contract: [true] exactly on
    agreement on every named field, and [false] whenever a named field is
    on one object only. *)
Definition comparator_contract (fields : list string) (a b : object) : Prop :=
  (getComparisonFunc fields a b = true ↔ ∀ f, f ∈ fields → agree a b f) ∧
  (∀ f, f ∈ fields → one_sided a b f → getComparisonFunc fields a b = false).

(** None of the named fields of the object holds [NaN]. *)
Definition nan_free (fields : list string) (x : object) : Prop :=
  ∀ f, f ∈ fields → get x f ≠ VNaN.

(** [itemsAttribute] was left out or is the empty string. *)
Definition blank (itemsAttribute : option string) : Prop :=
  itemsAttribute = None ∨ itemsAttribute = Some "".

(** An item of the relationship-attribute form: its [value] is an
    object (the one that holds [textValue]). *)
Definition attribute_item (ident : object) : Prop :=
  ∃ ref props, ident !! "value" = Some (VObj ref props).

(** The calls both materialisers start with: the Set row, the fetch of its
    item collection, and the one [attach] with the ids of all unchanged
    items. *)
Definition setup_trace (SetModel : model_class) (rel : string)
    (transacting : Transaction) (set_id : Z) (ids : list value) : list call :=
  [ ModelSave SetModel ∅ None transacting set_id;
    CollectionFetch (VNum set_id) rel transacting;
    CollectionAttach (VNum set_id) rel ids transacting ].

(** The [create] calls for a list of rows, with ids counting up. *)
Fixpoint create_trace (owner : value) (rel : string)
    (transacting : Transaction) (id : Z) (rows : list object) : list call :=
  match rows with
  | [] => []
  | attrs :: rows' =>
      CollectionCreate owner rel attrs transacting id
      :: create_trace owner rel transacting (id + 1)%Z rows'
  end.

(** [ident.value.textValue], where it can be read. *)
Definition textValue_of (ident : object) : value :=
  default VUndefined (member (get ident "value") "textValue").

(** The saves of the text values of a list of added relationship
    attributes: the rows created for them took the ids from [id] on, the
    value rows take theirs from [value_id] on, and an item whose
    [value.textValue] cannot be read has no value row. *)
Fixpoint value_trace (orm : ORM) (transacting : Transaction)
    (id value_id : Z) (added : list object) : list call :=
  match added with
  | [] => []
  | ident :: added' =>
      match member (get ident "value") "textValue" with
      | Some textValue =>
          ModelSave (RelationshipAttributeTextValue orm)
            {[ "attributeId" := VNum id; "textValue" := textValue ]}
            (Some "insert") transacting value_id
          :: value_trace orm transacting (id + 1)%Z (value_id + 1)%Z added'
      | None => value_trace orm transacting (id + 1)%Z value_id added'
      end
  end.

(** The rest of the callbacks of a list of added relationship attributes
    whose rows took the ids from [id] on. *)
Fixpoint continuations (orm : ORM) (transacting : Transaction) (id : Z)
    (added : list object) : list (Promise model) :=
  match added with
  | [] => []
  | ident :: added' =>
      save_text_value orm transacting ident
        (Model (<["id" := VNum id]> (Lodash.pick ident "attributeType")))
      :: continuations orm transacting (id + 1)%Z added'
  end.



(** The transaction a call was made under. *)
Definition call_transaction (c : call) : Transaction :=
  match c with
  | ModelSave _ _ _ transacting _ => transacting
  | CollectionFetch _ _ transacting => transacting
  | CollectionAttach _ _ _ transacting => transacting
  | CollectionCreate _ _ _ transacting _ => transacting
  end.

(** The call is the save of the row [set_id] of [SetModel], or goes to the
    collection [rel] of that row. *)
Definition on_new_set (SetModel : model_class) (set_id : Z) (rel : string)
    (c : call) : Prop :=
  match c with
  | ModelSave cls attrs _ _ id => cls = SetModel ∧ attrs = ∅ ∧ id = set_id
  | CollectionFetch owner r _ => owner = VNum set_id ∧ r = rel
  | CollectionAttach owner r _ _ => owner = VNum set_id ∧ r = rel
  | CollectionCreate owner r _ _ _ => owner = VNum set_id ∧ r = rel
  end.

(** [value.textValue] cannot be read on the item. *)
Definition no_value (ident : object) : Prop :=
  member (get ident "value") "textValue" = None.

(** ** Entity helpers *)

(** [_.pick(object, keys)] for property names: the loop goes through the
    keys and copies every one the object has. *)
Definition pick_keys (obj : object) (keys : list string) : object :=
  foldl (λ result key,
           match obj !! key with
           | Some v => <[key := v]> result
           | None => result
           end) ∅ keys.

(** [array[i]] as array destructuring reads it. *)
Definition element (array : list value) (i : nat) : value :=
  default VUndefined (array !! i).

(** [getAdditionalEntityProps(entityData, entityType)]; [null] is [None].
    [parseDate] comes from the utilities of the repository and is a
    parameter here; it returns the array that is destructured into year,
    month and day. *)
Definition getAdditionalEntityProps (parseDate : value → list value)
    (entityData : object) (entityType : string) : option object :=
  if bool_decide (entityType = "Author") then
    let typeId := get entityData "typeId" in
    let genderId := get entityData "genderId" in
    let beginAreaId := get entityData "beginAreaId" in
    let beginDate := get entityData "beginDate" in
    let endDate := get entityData "endDate" in
    let ended := get entityData "ended" in
    let endAreaId := get entityData "endAreaId" in
    let beginParts := parseDate beginDate in
    let endParts := parseDate endDate in
    Some {[ "beginAreaId" := beginAreaId; "beginDate" := beginDate;
            "beginDay" := element beginParts 2;
            "beginMonth" := element beginParts 1;
            "beginYear" := element beginParts 0;
            "endAreaId" := endAreaId; "endDate" := endDate;
            "endDay" := element endParts 2;
            "endMonth" := element endParts 1;
            "endYear" := element endParts 0;
            "ended" := ended; "genderId" := genderId; "typeId" := typeId ]}
  else if bool_decide (entityType = "Edition") then
    Some (pick_keys entityData
            ["editionGroupBbid"; "width"; "height"; "depth"; "weight";
             "pages"; "formatId"; "statusId"])
  else if bool_decide (entityType = "Publisher") then
    let typeId := get entityData "typeId" in
    let areaId := get entityData "areaId" in
    let beginDate := get entityData "beginDate" in
    let endDate := get entityData "endDate" in
    let ended := get entityData "ended" in
    let beginParts := parseDate beginDate in
    let endParts := parseDate endDate in
    Some {[ "areaId" := areaId; "beginDate" := beginDate;
            "beginDay" := element beginParts 2;
            "beginMonth" := element beginParts 1;
            "beginYear" := element beginParts 0;
            "endDate" := endDate;
            "endDay" := element endParts 2;
            "endMonth" := element endParts 1;
            "endYear" := element endParts 0;
            "ended" := ended; "typeId" := typeId ]}
  else if bool_decide (entityType = "EditionGroup")
          || bool_decide (entityType = "Work") then
    Some (pick_keys entityData ["typeId"])
  else if bool_decide (entityType = "Series") then
    Some (pick_keys entityData ["entityType"; "orderingTypeId"])
  else None.

(** The entity types the [switch] has a case for. *)
Definition entity_types : list string :=
  ["Author"; "Edition"; "Publisher"; "EditionGroup"; "Work"; "Series"].

(** The fields [_.pick] keeps for the entity types that go through it. *)
Definition picked_fields (entityType : string) : list string :=
  if bool_decide (entityType = "Edition") then
    ["editionGroupBbid"; "width"; "height"; "depth"; "weight";
     "pages"; "formatId"; "statusId"]
  else if bool_decide (entityType = "EditionGroup")
          || bool_decide (entityType = "Work") then ["typeId"]
  else if bool_decide (entityType = "Series") then
    ["entityType"; "orderingTypeId"]
  else [].

(** A query sent with [raw]: the connection it goes through ([None] for
    [orm.bookshelf.knex], a transaction otherwise) and its text. *)
Record raw_query := RawQuery {
  query_connection : option Transaction;
  query_sql : string
}.

Definition redirectSQLQuery (bbid : string) : string :=
  "SELECT target_bbid FROM bookbrainz.entity_redirect WHERE source_bbid = '"
  +:+ bbid +:+ "'".

(** [recursivelyGetRedirectBBID(orm, bbid, transacting)].  The database
    is the parameter [raw]: it answers a query with the [rows] of the
    result ([None] when the result has none), each row given by its
    [target_bbid].  The result is the list of the queries sent and the
    bbid returned; the recursion of the source is unbounded, so the
    function takes fuel and returns no bbid when it runs out. *)
Fixpoint recursivelyGetRedirectBBID
    (raw : raw_query → option (list string)) (fuel : nat)
    (bbid : string) (transacting : option Transaction)
  : list raw_query * option string :=
  match fuel with
  | O => ([], None)
  | S fuel' =>
      let query := RawQuery transacting (redirectSQLQuery bbid) in
      match raw query with
      | Some (redirectedBBID :: _) =>
          let '(queries, result) :=
            recursivelyGetRedirectBBID raw fuel' redirectedBBID None in
          (query :: queries, result)
      | _ => ([query], Some bbid)
      end
  end.

(** The first row the database holds for the redirect query of [bbid] on
    a connection. *)
Definition redirect_of (raw : raw_query → option (list string))
    (connection : option Transaction) (bbid : string) : option string :=
  match raw (RawQuery connection (redirectSQLQuery bbid)) with
  | Some (target :: _) => Some target
  | _ => None
  end.

(** [bbid] redirects, hop by hop, through the bbids of [hops] and stops
    at a bbid that has no redirect; the first hop is looked up on
    [connection], the later ones on the default connection. *)
Fixpoint redirect_chain (raw : raw_query → option (list string))
    (connection : option Transaction) (bbid : string) (hops : list string)
    (final : string) : Prop :=
  match hops with
  | [] => redirect_of raw connection bbid = None ∧ final = bbid
  | next :: hops' =>
      redirect_of raw connection bbid = Some next ∧
      redirect_chain raw None next hops' final
  end.

(** ** Deleting an editor *)

(** A query built on a transaction: the table, the [where] object and,
    for a [select], the column, for an [update], the new values. *)
Inductive knex_query : Type :=
  | KnexSelect (table column : string) (cond : list (string * value))
  | KnexUpdate (table : string) (cond updates : list (string * value))
  | KnexDel (table : string) (cond : list (string * value)).

(** A value inside a template literal. *)
Definition to_string (v : value) : string :=
  match v with
  | VUndefined => "undefined"
  | VNull => "null"
  | VBool true => "true"
  | VBool false => "false"
  | VNum n => pretty n
  | VNaN => "NaN"
  | VStr s => s
  | VObj _ _ => "[object Object]"
  end.

Definition getEditorIDByMetaBrainzID_query (metabrainzUserID : value)
  : knex_query :=
  KnexSelect "bookbrainz.editor" "id"
    [("metabrainz_user_id", metabrainzUserID)].

Definition clearEditorByID (editorID : value) : knex_query :=
  KnexUpdate "bookbrainz.editor" [("editor_id", editorID)]
    [("area_id", VNull); ("bio", VStr "");
     ("cached_metabrainz_name", VStr "<deleted>"); ("gender_id", VNull);
     ("name", VStr ("Deleted Editor #" +:+ to_string editorID))].

Definition clearEditorLanguagesByEditorID (editorID : value) : knex_query :=
  KnexDel "bookbrainz.editor__language" [("editor_id", editorID)].

(** [deleteEditorByMetaBrainzID(knex)(metabrainzUserID)], inside its
    transaction.  The database is the parameter [rows_of], the rows a
    [select] comes back with; the result is the list of the queries run
    and the boolean the promise resolves to. *)
Definition deleteEditorByMetaBrainzID (rows_of : knex_query → list object)
    (metabrainzUserID : value) : list knex_query * bool :=
  let select := getEditorIDByMetaBrainzID_query metabrainzUserID in
  let rows := rows_of select in
  let editorID :=
    match rows with
    | row :: _ => get row "id"
    | [] => VNull
    end in
  if strict_eq editorID VNull then ([select], false)
  else
    ([select; clearEditorByID editorID;
      clearEditorLanguagesByEditorID editorID], true).

(** The query changes the database. *)
Definition writes (q : knex_query) : bool :=
  match q with
  | KnexSelect _ _ _ => false
  | _ => true
  end.

(** ** Sample items *)

Module Samples.
(** A stored alias row and the same alias as a form sends it. *)
Definition stored_alias : object := {[ "id" := VNum 1; "name" := VStr "a" ]}.

Definition form_alias : object := {[ "name" := VStr "a" ]}.

Definition other_alias : object := {[ "name" := VStr "b" ]}.

(** An object that mentions [name] without giving it a value. *)
Definition unnamed_alias : object := {[ "name" := VUndefined ]}.

Definition empty_object : object := ∅.

(** An identifier whose numeric type failed to parse. *)
Definition nan_identifier : object :=
  {[ "typeId" := VNaN; "value" := VStr "Q42" ]}.

Definition identifier_fields : list string := ["typeId"; "value"].

(** Two relationship attributes of a form, with text values x and y. *)
Definition attribute_x : object :=
  {[ "attributeType" := VNum 1;
     "value" := VObj 1 {[ "textValue" := VStr "x" ]} ]}.

Definition attribute_y : object :=
  {[ "attributeType" := VNum 2;
     "value" := VObj 2 {[ "textValue" := VStr "y" ]} ]}.

Definition orm : ORM :=
  {| RelationshipAttributeTextValue := "RelationshipAttributeTextValue" |}.

Definition empty_store : store := Store 1 [].

(** A relationship attribute whose [value] is missing. *)
Definition attribute_bare : object := {[ "attributeType" := VNum 3 ]}.

(** A second stored row of the alias a, and a stored row of the alias b. *)
Definition stored_alias_again : object :=
  {[ "id" := VNum 2; "name" := VStr "a" ]}.

Definition stored_other_alias : object :=
  {[ "id" := VNum 3; "name" := VStr "b" ]}.

(** An added alias that comes with an id of its own. *)
Definition added_alias_with_id : object :=
  {[ "id" := VNum 9; "name" := VStr "c"; "sortName" := VStr "c" ]}.

(** The reading of paths for the samples, whose [idAttribute] is always a
    plain key: it is never consulted. *)
Definition paths : Lodash.Paths :=
  {| Lodash.get_path := λ _ _, VUndefined; Lodash.omit_path := λ obj _, obj |}.

(** The data of an edition as a parser hands it over. *)
Definition edition_data : object :=
  {[ "aliases" := VNull; "pages" := VNum 200; "formatId" := VNum 2 ]}.

(** A redirect table: a redirects to b, b to c, and d to itself. *)
Definition redirects (query : raw_query) : option (list string) :=
  if bool_decide (query_sql query = redirectSQLQuery "a") then Some ["b"]
  else if bool_decide (query_sql query = redirectSQLQuery "b") then Some ["c"]
  else if bool_decide (query_sql query = redirectSQLQuery "d") then Some ["d"]
  else Some [].
End Samples.

(** * Properties *)

(** ** The lodash loops *)

Section ArrayFacts.
Context {A : Type} (cmp : A → A → bool).
Implicit Types (l arr acc other : list A) (x y : A).

Lemma includes_true l x :
  Lodash.arrayIncludesWith l x cmp = true ↔ ∃ y, y ∈ l ∧ cmp x y = true.
Proof.
  induction l as [|z l IH]; simpl.
  - split; [discriminate | intros (y & Hy & _); inversion Hy].
  - destruct (cmp x z) eqn:Hz.
    + split; [|done]. intros _. exists z. split; [left | done].
    + rewrite IH. split; intros (y & Hy & Hxy).
      * exists y. split; [by right | done].
      * apply elem_of_cons in Hy as [->|Hy]; [congruence|]. by exists y.
Qed.

Lemma includes_false l x :
  Lodash.arrayIncludesWith l x cmp = false ↔ Forall (λ y, cmp x y = false) l.
Proof.
  induction l as [|z l IH]; simpl.
  - split; [constructor | done].
  - rewrite Forall_cons. destruct (cmp x z); [|rewrite IH]; naive_solver.
Qed.

Lemma includes_mono l l' x :
  l ⊆ l' →
  Lodash.arrayIncludesWith l x cmp = true →
  Lodash.arrayIncludesWith l' x cmp = true.
Proof.
  rewrite !includes_true. intros Hsub (y & Hy & Hxy). exists y. split; [|done].
  by apply Hsub.
Qed.

Lemma distinct_under_snoc l x :
  distinct_under cmp (l ++ [x]) ↔
  distinct_under cmp l ∧ Lodash.arrayIncludesWith l x cmp = false.
Proof.
  rewrite includes_false. induction l as [|z l IH]; simpl.
  - rewrite Forall_nil. naive_solver.
  - rewrite IH, Forall_app, Forall_singleton, Forall_cons. naive_solver.
Qed.

Lemma distinct_under_app l l' :
  distinct_under cmp (l ++ l') ↔
  distinct_under cmp l ∧ distinct_under cmp l' ∧
  ∀ x y, x ∈ l → y ∈ l' → cmp y x = false.
Proof.
  induction l as [|z l IH]; simpl.
  - split; [|naive_solver]. intros H. repeat split; [done|].
    intros x y Hx. inversion Hx.
  - rewrite IH, Forall_app, !Forall_forall. split.
    + intros ((Hl & Hl') & Hd & Hd' & Hx). repeat split; [done..|].
      intros x y [->|Hin]%elem_of_cons Hy; [by apply Hl' | by apply Hx].
    + intros ((Hl & Hd) & Hd' & Hx). repeat split; [done | | done..|].
      * intros y Hy. apply Hx; [left | done].
      * intros x y Hin Hy. apply Hx; [by right | done].
Qed.

(** *** [baseUniq] *)

Lemma uniq_loop_elem arr acc x :
  x ∈ Lodash.baseUniq_loop cmp arr acc → x ∈ acc ∨ x ∈ arr.
Proof.
  revert acc. induction arr as [|v arr IH]; intros acc; simpl; [by left|].
  destruct (negb _); intros [Hx|Hx]%IH; set_solver.
Qed.

Lemma uniq_loop_keeps arr acc : acc ⊆ Lodash.baseUniq_loop cmp arr acc.
Proof.
  revert acc. induction arr as [|v arr IH]; intros acc; simpl; [done|].
  destruct (negb _); [|apply IH]. etrans; [|apply IH]. set_solver.
Qed.

Lemma uniq_loop_distinct arr acc :
  distinct_under cmp acc → distinct_under cmp (Lodash.baseUniq_loop cmp arr acc).
Proof.
  revert acc. induction arr as [|v arr IH]; intros acc Hacc; simpl; [done|].
  destruct (Lodash.arrayIncludesWith acc v cmp) eqn:Hv; simpl; apply IH;
    [done|].
  by apply distinct_under_snoc.
Qed.

(** Every item of the array is in the result or equal to an item of it. *)
Lemma uniq_loop_covers arr acc x :
  x ∈ arr →
  x ∈ Lodash.baseUniq_loop cmp arr acc ∨
  Lodash.arrayIncludesWith (Lodash.baseUniq_loop cmp arr acc) x cmp = true.
Proof.
  revert acc. induction arr as [|v arr IH]; intros acc Hx; [inversion Hx|].
  simpl. apply elem_of_cons in Hx as [->|Hx].
  - destruct (Lodash.arrayIncludesWith acc v cmp) eqn:Hv; simpl.
    + right. eapply includes_mono; [apply uniq_loop_keeps | done].
    + left. apply uniq_loop_keeps. set_solver.
  - destruct (negb _); by apply IH.
Qed.

(** A list that is already distinct goes through the loop unchanged. *)
Lemma uniq_loop_fixed arr acc :
  distinct_under cmp (acc ++ arr) →
  Lodash.baseUniq_loop cmp arr acc = acc ++ arr.
Proof.
  revert acc. induction arr as [|v arr IH]; intros acc Hd; simpl.
  - by rewrite app_nil_r.
  - replace (acc ++ v :: arr) with ((acc ++ [v]) ++ arr) in *
      by (by rewrite <-app_assoc).
    assert (Lodash.arrayIncludesWith acc v cmp = false) as ->.
    { apply distinct_under_app in Hd as (Hd & _ & _).
      by apply distinct_under_snoc in Hd as [_ ?]. }
    simpl. by apply IH.
Qed.

Lemma uniqWith_baseUniq l : Lodash.uniqWith l cmp = Lodash.baseUniq l cmp.
Proof. unfold Lodash.uniqWith. by destruct l. Qed.

Lemma uniqWith_elem l x : x ∈ Lodash.uniqWith l cmp → x ∈ l.
Proof.
  rewrite uniqWith_baseUniq. intros [Hx|Hx]%uniq_loop_elem; [inversion Hx|done].
Qed.

Lemma uniqWith_distinct l : distinct_under cmp (Lodash.uniqWith l cmp).
Proof. rewrite uniqWith_baseUniq. by apply uniq_loop_distinct. Qed.

Lemma uniqWith_idempotent l :
  Lodash.uniqWith (Lodash.uniqWith l cmp) cmp = Lodash.uniqWith l cmp.
Proof.
  rewrite (uniqWith_baseUniq (Lodash.uniqWith l cmp)).
  apply (uniq_loop_fixed _ []), uniqWith_distinct.
Qed.

Lemma uniqWith_covers l x :
  cmp x x = true → x ∈ l → ∃ r, r ∈ Lodash.uniqWith l cmp ∧ cmp x r = true.
Proof.
  intros Hrefl Hx. rewrite uniqWith_baseUniq.
  destruct (uniq_loop_covers l [] x Hx) as [Hin|Hin].
  - exists x. by split.
  - by apply includes_true.
Qed.

(** *** [baseDifference] *)

Lemma difference_loop_filter values arr acc :
  Lodash.baseDifference_loop cmp values arr acc =
  acc ++ List.filter (λ x, negb (Lodash.arrayIncludesWith values x cmp)) arr.
Proof.
  revert acc. induction arr as [|v arr IH]; intros acc; simpl.
  - by rewrite app_nil_r.
  - destruct (negb _); rewrite IH; [by rewrite <-app_assoc | done].
Qed.

Lemma differenceWith_filter arr values :
  Lodash.differenceWith arr values cmp =
  List.filter (λ x, negb (Lodash.arrayIncludesWith values x cmp)) arr.
Proof.
  unfold Lodash.differenceWith, Lodash.baseDifference.
  destruct arr; [done|]. apply difference_loop_filter.
Qed.

Lemma differenceWith_elem arr values x :
  x ∈ Lodash.differenceWith arr values cmp ↔
  x ∈ arr ∧ Lodash.arrayIncludesWith values x cmp = false.
Proof.
  rewrite differenceWith_filter, !list_elem_of_In, filter_In.
  by rewrite negb_true_iff.
Qed.

(** *** [baseIntersection] *)

Lemma intersection_loop_elem other m arr acc x :
  x ∈ Lodash.baseIntersection_loop cmp other m arr acc →
  x ∈ acc ∨ (x ∈ arr ∧ Lodash.arrayIncludesWith other x cmp = true).
Proof.
  revert acc. induction arr as [|v arr IH]; intros acc; simpl; [by left|].
  case_bool_decide; [|by left].
  destruct (Lodash.arrayIncludesWith acc v cmp); simpl.
  { intros [?|[? ?]]%IH; [by left | right; split; [by right | done]]. }
  destruct (Lodash.arrayIncludesWith other v cmp) eqn:Hv; simpl.
  - intros [[?|Hx%list_elem_of_singleton]%elem_of_app|[? ?]]%IH.
    + by left.
    + subst x. right. split; [left | done].
    + right. split; [by right | done].
  - intros [?|[? ?]]%IH; [by left | right; split; [by right | done]].
Qed.

Lemma intersection_loop_keeps other m arr acc :
  acc ⊆ Lodash.baseIntersection_loop cmp other m arr acc.
Proof.
  revert acc. induction arr as [|v arr IH]; intros acc; simpl; [done|].
  case_bool_decide; [|done].
  destruct (negb (Lodash.arrayIncludesWith acc v cmp)); [|apply IH].
  destruct (negb _); [apply IH|]. etrans; [|apply IH]. set_solver.
Qed.

Lemma intersection_loop_distinct other m arr acc :
  distinct_under cmp acc →
  distinct_under cmp (Lodash.baseIntersection_loop cmp other m arr acc).
Proof.
  revert acc. induction arr as [|v arr IH]; intros acc Hacc; simpl; [done|].
  case_bool_decide; [|done].
  destruct (Lodash.arrayIncludesWith acc v cmp) eqn:Hv; simpl; [by apply IH|].
  destruct (negb _); apply IH; [done|]. by apply distinct_under_snoc.
Qed.

(** Against an array that includes every item of the first one, with room
    for all of them, the loop does what the loop of [baseUniq] does. *)
Lemma intersection_loop_uniq other m arr acc :
  (∀ x, x ∈ arr → Lodash.arrayIncludesWith other x cmp = true) →
  (length acc + length arr ≤ m)%nat →
  Lodash.baseIntersection_loop cmp other m arr acc =
  Lodash.baseUniq_loop cmp arr acc.
Proof.
  revert acc. induction arr as [|v arr IH]; intros acc Hin Hlen; simpl; [done|].
  simpl in Hlen. rewrite bool_decide_true by lia.
  rewrite (Hin v) by left. simpl.
  destruct (negb _); apply IH; try (intros; apply Hin; by right);
    rewrite ?length_app; simpl; lia.
Qed.
End ArrayFacts.

(** ** Comparators that are equivalences on the items at hand *)

Section EquivalenceFacts.
Context {A : Type} (cmp : A → A → bool) (dom : list A).
Context (Hsym : symmetric_on dom cmp) (Htrans : transitive_on dom cmp).
Implicit Types (l R N arr acc other : list A) (x y n r : A).

Lemma filter_none (f : A → bool) l :
  Forall (λ y, f y = false) l → List.filter f l = [].
Proof.
  induction 1 as [|y l Hy _ IH]; simpl; [done|]. by rewrite Hy.
Qed.

Lemma equivalents_at_most_one n l :
  n ∈ dom → l ⊆ dom →
  distinct_under cmp l → (length (equivalents cmp n l) ≤ 1)%nat.
Proof.
  intros Hn. unfold equivalents. induction l as [|x l IH]; simpl; [lia|].
  intros Hdom [Hx Hl]. assert (l ⊆ dom) as Hldom by set_solver.
  destruct (cmp n x) eqn:Hnx; [|by apply IH].
  rewrite filter_none; [simpl; lia|].
  apply Forall_forall. intros y Hy. rewrite Forall_forall in Hx.
  destruct (cmp n y) eqn:Hny; [|done].
  assert (y ∈ dom) by set_solver. assert (x ∈ dom) by set_solver.
  apply Hsym in Hny; [|done..].
  specialize (Hx y Hy). simpl in Hx.
  by rewrite (Htrans y n x) in Hx.
Qed.

Lemma equivalents_at_least_one n l r :
  r ∈ l → cmp n r = true → (1 ≤ length (equivalents cmp n l))%nat.
Proof.
  intros Hr Hnr. unfold equivalents.
  assert (In r (List.filter (cmp n) l)) as Hin.
  { apply filter_In. split; [by apply list_elem_of_In | done]. }
  destruct (List.filter (cmp n) l); [destruct Hin | simpl; lia].
Qed.

(** Distinct items that each have a partner in [N] and are at least as
    many as the items of [N] leave no item of [N] without a partner. *)
Lemma distinct_partners_cover R : ∀ N,
  R ⊆ dom → N ⊆ dom →
  distinct_under cmp R →
  (∀ r, r ∈ R → ∃ n, n ∈ N ∧ cmp r n = true) →
  (length N ≤ length R)%nat →
  ∀ n, n ∈ N → ∃ r, r ∈ R ∧ cmp n r = true.
Proof.
  induction R as [|r R IH]; intros N HR HN Hd Hpartner Hlen n Hn.
  - destruct N; [inversion Hn | simpl in Hlen; lia].
  - destruct Hd as [Hr Hd].
    assert (r ∈ dom) as Hrdom by set_solver.
    destruct (Hpartner r) as (n0 & Hn0 & Hrn0); [left|].
    apply list_elem_of_split in Hn0 as (N1 & N2 & ->).
    assert (n0 ∈ dom) as Hn0dom by set_solver.
    assert (∀ n', n' ∈ N1 ++ N2 → ∃ r', r' ∈ R ∧ cmp n' r' = true) as Hrest.
    { apply IH; [set_solver | set_solver | done | |].
      - intros r' Hr'. destruct (Hpartner r') as (n' & Hn' & Hrn'); [by right|].
        exists n'. split; [|done].
        apply elem_of_app in Hn' as [?|[->|?]%elem_of_cons];
          [set_solver | | set_solver].
        rewrite Forall_forall in Hr. specialize (Hr r' Hr'). simpl in Hr.
        assert (r' ∈ dom) by set_solver.
        rewrite (Htrans r' n0 r) in Hr; [done..|]. by apply Hsym.
      - rewrite length_app in *. simpl in Hlen. lia. }
    apply elem_of_app in Hn as [Hn|[->|Hn]%elem_of_cons].
    + destruct (Hrest n) as (r' & ? & ?); [set_solver|].
      exists r'. split; [by right | done].
    + exists r. split; [left | by apply Hsym].
    + destruct (Hrest n) as (r' & ? & ?); [set_solver|].
      exists r'. split; [by right | done].
Qed.

Context (Hrefl : reflexive_on dom cmp).

(** Leaving the loop of [baseIntersection] early loses nothing: every
    item of the first array with a partner in the other one is equal to
    an item of the result. *)
Lemma intersection_loop_covers other lenO arr : ∀ acc x,
  other ⊆ dom → arr ⊆ dom → acc ⊆ dom →
  distinct_under cmp acc →
  (∀ r, r ∈ acc → ∃ n, n ∈ other ∧ cmp r n = true) →
  (length acc + length arr ≤ lenO)%nat →
  x ∈ arr →
  Lodash.arrayIncludesWith other x cmp = true →
  ∃ r, r ∈ Lodash.baseIntersection_loop cmp other
             (lenO `min` length other)%nat arr acc ∧ cmp x r = true.
Proof.
  induction arr as [|v arr IH];
    intros acc x Hother Harr Hacc Hd Hpartner Hlen Hx Hox; [inversion Hx|].
  assert (arr ⊆ dom) as Harr' by set_solver.
  assert (v ∈ dom) as Hvdom by set_solver.
  simpl in *. case_bool_decide as Hroom.
  - destruct (Lodash.arrayIncludesWith acc v cmp) eqn:Hv; simpl.
    { apply elem_of_cons in Hx as [->|Hx].
      - apply includes_true in Hv as (r & Hr & Hvr). exists r. split; [|done].
        by apply intersection_loop_keeps.
      - apply IH; [done | done | done | done | done | lia | done | done]. }
    destruct (Lodash.arrayIncludesWith other v cmp) eqn:Hov; simpl.
    + apply elem_of_cons in Hx as [->|Hx].
      * exists v. split; [|by apply Hrefl].
        apply intersection_loop_keeps. set_solver.
      * apply IH; [done | done | set_solver | by apply distinct_under_snoc
                  | | | done | done].
        -- intros r [Hr|Hr%list_elem_of_singleton]%elem_of_app;
             [by apply Hpartner|].
           subst r. by apply includes_true.
        -- rewrite length_app. simpl. lia.
    + apply elem_of_cons in Hx as [->|Hx]; [congruence|].
      apply IH; [done | done | done | done | done | lia | done | done].
  - apply includes_true in Hox as (n & Hn & Hxn).
    destruct (distinct_partners_cover acc other Hacc Hother Hd Hpartner)
      with (n := n) as (r & Hr & Hnr); [lia | done |].
    exists r. split; [done|].
    apply (Htrans x n r); [set_solver | set_solver | set_solver | done..].
Qed.

Lemma intersectionWith_covers arr other x :
  arr ⊆ dom → other ⊆ dom →
  x ∈ arr →
  Lodash.arrayIncludesWith other x cmp = true →
  ∃ r, r ∈ Lodash.intersectionWith arr other cmp ∧ cmp x r = true.
Proof.
  intros Harr Hother Hx Hox.
  apply intersection_loop_covers;
    [done | done | set_solver | done | | simpl; lia | done..].
  intros r Hr. inversion Hr.
Qed.
End EquivalenceFacts.

(** ** The comparator *)

Section ComparatorFacts.
Implicit Types (a b c : value) (x y z : object) (fields : list string).

Lemma strict_eq_sym a b : strict_eq a b = strict_eq b a.
Proof.
  destruct a, b; simpl; try done;
    apply bool_decide_ext; split; congruence.
Qed.

Lemma strict_eq_trans a b c :
  strict_eq a b = true → strict_eq b c = true → strict_eq a c = true.
Proof.
  destruct a, b; simpl; try done; destruct c; simpl; try done;
    rewrite !bool_decide_eq_true; congruence.
Qed.

Lemma strict_eq_refl a : a ≠ VNaN → strict_eq a a = true.
Proof. destruct a; simpl; try done; by rewrite ?bool_decide_eq_true. Qed.

Lemma strict_eq_undefined a :
  strict_eq a VUndefined = true → a = VUndefined.
Proof. by destruct a. Qed.

Lemma getComparisonFunc_agree fields x y :
  getComparisonFunc fields x y = true ↔ ∀ f, f ∈ fields → agree x y f.
Proof.
  unfold getComparisonFunc, agree, strict_neq.
  induction fields as [|g fields IH].
  - split; [|done]. intros _ f Hf. inversion Hf.
  - destruct (strict_eq (get x g) (get y g)) eqn:Hg; simpl.
    + rewrite IH. split.
      * intros H f [->|Hf]%elem_of_cons; [done | by apply H].
      * intros H f Hf. apply H. by right.
    + split; [done|]. intros H. rewrite <-Hg. apply H. left.
Qed.

Lemma getComparisonFunc_symmetric fields dom :
  symmetric_on dom (getComparisonFunc fields).
Proof.
  intros x y _ _. rewrite !getComparisonFunc_agree. unfold agree.
  intros H f Hf. rewrite strict_eq_sym. by apply H.
Qed.

Lemma getComparisonFunc_transitive fields dom :
  transitive_on dom (getComparisonFunc fields).
Proof.
  intros x y z _ _ _. rewrite !getComparisonFunc_agree. unfold agree.
  intros Hxy Hyz f Hf. eapply strict_eq_trans; [by apply Hxy | by apply Hyz].
Qed.

Lemma getComparisonFunc_reflexive fields dom :
  Forall (nan_free fields) dom → reflexive_on dom (getComparisonFunc fields).
Proof.
  rewrite Forall_forall. intros Hdom x Hx. apply getComparisonFunc_agree.
  intros f Hf. apply strict_eq_refl. by apply Hdom.
Qed.

(** On items free of [NaN] the comparators built here are equivalences. *)
Lemma getComparisonFunc_equivalence fields dom :
  Forall (nan_free fields) dom → equivalence_on dom (getComparisonFunc fields).
Proof.
  intros Hdom. split.
  - by apply getComparisonFunc_reflexive.
  - apply getComparisonFunc_symmetric.
  - apply getComparisonFunc_transitive.
Qed.
End ComparatorFacts.

(** C4, as amended.  The function returned by [getComparisonFunc] gives
    [true] on a pair exactly when the two objects agree under strict
    equality on every named field; and it gives [false] on every pair in
    which some named field holds a value other than [undefined] on one
    side and reads [undefined] (absent, or set to [undefined]) on the
    other. *)
Theorem getComparisonFunc_contract (fields : list string) (a b : object) :
  (getComparisonFunc fields a b = true ↔ ∀ f, f ∈ fields → agree a b f) ∧
  (∀ f, f ∈ fields → defined_one_sided a b f →
        getComparisonFunc fields a b = false).
Proof.
  split; [apply getComparisonFunc_agree|].
  intros f Hf Hside. apply not_true_is_false.
  rewrite getComparisonFunc_agree. intros Hagree.
  specialize (Hagree f Hf). unfold agree in Hagree.
  destruct Hside as [[Ha Hb]|[Ha Hb]].
  - rewrite Hb in Hagree. by apply strict_eq_undefined in Hagree.
  - rewrite Ha, strict_eq_sym in Hagree. by apply strict_eq_undefined in Hagree.
Qed.

Lemma getComparisonFunc_contract_witness :
  getComparisonFunc ["name"] Samples.form_alias Samples.empty_object = false.
Proof.
  apply (proj2 (getComparisonFunc_contract
                  ["name"] Samples.form_alias Samples.empty_object) "name").
  - left.
  - left. split; [vm_compute; discriminate | reflexivity].
Defined.

(** C4, as stated, fails: a field that is set to [undefined] on one object
    and missing on the other reads [undefined] on both, and the objects
    compare equal. *)
Lemma getComparisonFunc_undefined_field :
  ¬ comparator_contract ["name"] Samples.unnamed_alias Samples.empty_object.
Proof.
  intros [_ Hone]. specialize (Hone "name").
  assert (getComparisonFunc ["name"]
            Samples.unnamed_alias Samples.empty_object = true) as Heq
    by (vm_compute; reflexivity).
  rewrite Hone in Heq; [discriminate | left |].
  unfold one_sided. vm_compute. discriminate.
Qed.

(** ** The differ *)

Section DifferFacts.
Context {Item : Type} (cmp : Item → Item → bool).
Implicit Types (O N : list Item) (x : Item).

Lemma intersectionWith_elem O N x :
  x ∈ Lodash.intersectionWith O N cmp →
  x ∈ O ∧ Lodash.arrayIncludesWith N x cmp = true.
Proof.
  intros [Hx|Hx]%intersection_loop_elem; [inversion Hx | done].
Qed.

Lemma unchanged_elem O N x :
  x ∈ getUnchangedItems O N cmp →
  x ∈ O ∧ Lodash.arrayIncludesWith N x cmp = true.
Proof. intros Hx%uniqWith_elem. by apply intersectionWith_elem. Qed.

Lemma added_elem O N x :
  x ∈ getAddedItems O N cmp →
  x ∈ N ∧ Lodash.arrayIncludesWith O x cmp = false.
Proof. intros Hx%uniqWith_elem. by apply differenceWith_elem. Qed.
End DifferFacts.

(** C1, as amended.  For every pair of finite sequences [O] and [N] and
    every comparator that is reflexive, symmetric and transitive on the
    items of [O] and [N], the unchanged and the added items are disjoint
    under the comparator, and every item of [N] is equivalent to exactly
    one item of the unchanged items followed by the added ones. *)
Theorem unchanged_added_partition {Item : Type} (cmp : Item → Item → bool)
    (O N : list Item) :
  equivalence_on (O ++ N) cmp → partitions_new cmp O N.
Proof.
  intros [Hrefl Hsym Htrans]. unfold partitions_new.
  set (U := getUnchangedItems O N cmp). set (A := getAddedItems O N cmp).
  assert (U ⊆ O) as HU by (intros x Hx; by apply unchanged_elem in Hx as [? _]).
  assert (A ⊆ N) as HA by (intros x Hx; by apply added_elem in Hx as [? _]).
  assert (∀ u a, u ∈ U → a ∈ A → cmp a u = false) as Hau.
  { intros u a Hu Ha. apply added_elem in Ha as [_ Ha].
    rewrite includes_false, Forall_forall in Ha. apply Ha. by apply HU. }
  split.
  - intros u a Hu Ha. split; [|by apply Hau].
    destruct (cmp u a) eqn:Hua; [|done].
    rewrite <-(Hau u a Hu Ha). symmetry. apply Hsym; [set_solver..|done].
  - intros n Hn. apply Nat.le_antisymm.
    + apply (equivalents_at_most_one cmp (O ++ N));
        [done | done | set_solver | set_solver |].
      apply distinct_under_app. split; [apply uniqWith_distinct|].
      split; [apply uniqWith_distinct | done].
    + destruct (Lodash.arrayIncludesWith O n cmp) eqn:HOn.
      * apply includes_true in HOn as (o & Ho & Hno).
        assert (cmp o n = true) as Hon by (apply Hsym; [set_solver..|done]).
        destruct (intersectionWith_covers cmp (O ++ N) Hsym Htrans Hrefl O N o)
          as (r & Hr & Hor); [set_solver | set_solver | done | |].
        { apply includes_true. by exists n. }
        destruct (uniqWith_covers cmp (Lodash.intersectionWith O N cmp) r)
          as (u & Hu & Hru); [|done|].
        { apply Hrefl. apply intersectionWith_elem in Hr as [? _]. set_solver. }
        apply (equivalents_at_least_one cmp n (U ++ A) u); [set_solver|].
        assert (r ∈ O) by (by apply intersectionWith_elem in Hr as [? _]).
        assert (u ∈ O) by (by apply HU).
        apply (Htrans n o u); [set_solver..| done |].
        apply (Htrans o r u); [set_solver..| done | done].
      * destruct (uniqWith_covers cmp (Lodash.differenceWith N O cmp) n)
          as (a & Ha & Hna).
        { apply Hrefl. set_solver. }
        { by apply differenceWith_elem. }
        apply (equivalents_at_least_one cmp n (U ++ A) a); [set_solver | done].
Qed.

Lemma unchanged_added_partition_witness :
  partitions_new (getComparisonFunc ["name"])
    [Samples.stored_alias] [Samples.form_alias; Samples.other_alias].
Proof.
  apply unchanged_added_partition, getComparisonFunc_equivalence.
  repeat constructor; intros f Hf%list_elem_of_singleton; subst f;
    vm_compute; discriminate.
Defined.

(** C1, as stated, fails: strict equality does not relate [NaN] to itself,
    so an added item with a [NaN] field is equivalent to no item at all,
    itself included. *)
Lemma partition_fails_on_nan :
  ¬ partitions_new (getComparisonFunc Samples.identifier_fields)
      [] [Samples.nan_identifier].
Proof.
  intros [_ Hone].
  assert (Samples.nan_identifier ∈ [Samples.nan_identifier]) as Hin by left.
  apply Hone in Hin. vm_compute in Hin. discriminate Hin.
Qed.

(** Neither symmetry nor transitivity can go from the amended C1: a
    reflexive and transitive order, and a reflexive and symmetric
    nearness, both break the partition. *)
Lemma partition_needs_symmetry : ¬ partitions_new Nat.leb [1%nat] [0%nat].
Proof.
  intros [_ Hone]. assert (0%nat ∈ [0%nat]) as Hin by left.
  apply Hone in Hin. vm_compute in Hin. discriminate Hin.
Qed.

Lemma partition_needs_transitivity :
  ¬ partitions_new (λ a b, (a - b <=? 1) && (b - a <=? 1))%nat
      [0%nat; 2%nat] [1%nat; 1%nat].
Proof.
  intros [_ Hone]. assert (1%nat ∈ [1%nat; 1%nat]) as Hin by left.
  apply Hone in Hin. vm_compute in Hin. discriminate Hin.
Qed.

(** C7.  For every pair of finite sequences [O] and [N] and every
    comparator, [getRemovedItems(O, N, cmp)] equals
    [getAddedItems(N, O, cmp)]. *)
Theorem removed_is_added_swapped {Item : Type} (cmp : Item → Item → bool)
    (O N : list Item) :
  getRemovedItems O N cmp = getAddedItems N O cmp.
Proof. reflexivity. Qed.

(** C8, as amended.  For every finite sequence [O] and every comparator
    that is reflexive on the items of [O], comparing [O] against itself
    gives [O] deduplicated under the comparator as the unchanged items,
    and neither added nor removed items. *)
Theorem self_diff_reflexive {Item : Type} (cmp : Item → Item → bool)
    (O : list Item) :
  reflexive_on O cmp → self_diff cmp O.
Proof.
  intros Hrefl.
  assert (∀ x, x ∈ O → Lodash.arrayIncludesWith O x cmp = true) as Hself.
  { intros x Hx. apply includes_true. exists x. split; [done | by apply Hrefl]. }
  assert (Lodash.differenceWith O O cmp = []) as Hdiff.
  { rewrite differenceWith_filter. apply filter_none, Forall_forall.
    intros x Hx. by rewrite Hself. }
  unfold self_diff, getUnchangedItems, getAddedItems, getRemovedItems.
  rewrite Hdiff. split; [|done].
  unfold Lodash.intersectionWith, Lodash.baseIntersection.
  rewrite intersection_loop_uniq; [|done | simpl; lia].
  fold (Lodash.baseUniq O cmp). rewrite <-uniqWith_baseUniq.
  apply uniqWith_idempotent.
Qed.

Lemma self_diff_reflexive_witness :
  self_diff (getComparisonFunc ["name"])
    [Samples.stored_alias; Samples.form_alias; Samples.other_alias].
Proof.
  apply self_diff_reflexive, getComparisonFunc_reflexive.
  repeat constructor; intros f Hf%list_elem_of_singleton; subst f;
    vm_compute; discriminate.
Defined.

(** C8, as stated, fails: an item with a [NaN] field has no partner in the
    collection it comes from, so it is added and removed rather than
    unchanged. *)
Lemma self_diff_fails_on_nan :
  ¬ self_diff (getComparisonFunc Samples.identifier_fields)
      [Samples.stored_alias; Samples.nan_identifier].
Proof. intros (_ & Hadded & _). vm_compute in Hadded. discriminate Hadded. Qed.

(** C9.  For every pair of finite sequences [O] and [N] and every
    comparator, every element of [getUnchangedItems(O, N, cmp)] is an
    element of the old collection [O]. *)
Theorem unchanged_items_from_old {Item : Type} (cmp : Item → Item → bool)
    (O N : list Item) (x : Item) :
  x ∈ getUnchangedItems O N cmp → x ∈ O.
Proof. intros Hx. by apply unchanged_elem in Hx as [? _]. Qed.

Lemma unchanged_items_from_old_witness :
  Samples.stored_alias ∈ [Samples.stored_alias].
Proof.
  apply (unchanged_items_from_old (getComparisonFunc ["name"])
           [Samples.stored_alias] [Samples.form_alias]).
  vm_compute. left.
Defined.

(** The representative of an unchanged alias is the stored row, with its
    id, not the id-less item of the form. *)
Example unchanged_keeps_stored_row :
  getUnchangedItems [Samples.stored_alias] [Samples.form_alias]
    (getComparisonFunc ["name"]) = [Samples.stored_alias].
Proof. vm_compute. reflexivity. Qed.

(** ** The materialisers *)

Section MaterialiserFacts.
Context {paths : Lodash.Paths}.
Implicit Types (orm : ORM) (tx : Transaction) (SetModel : model_class).
Implicit Types (unchanged added : list object) (s : store).

Lemma createNewSetWithItems_blank orm tx SetModel unchanged added ia idAttr s :
  blank ia →
  createNewSetWithItems orm tx SetModel unchanged added ia idAttr s =
  (Rejected (Error "itemsAttribute must be set in createNewSetWithItems"), s).
Proof. by intros [->| ->]. Qed.

Lemma createNewRelationshipAttributeSetWithItems_blank
    orm tx SetModel unchanged added ia idAttr s :
  blank ia →
  createNewRelationshipAttributeSetWithItems
    orm tx SetModel unchanged added ia idAttr s =
  (Rejected (Error
     "itemsAttribute must be set in createNewRelationshipAttributeSetWithItems"),
   s).
Proof. by intros [->| ->]. Qed.

Lemma itemsAttribute_error_InvalidArgument fn :
  InvalidArgument (Error ("itemsAttribute must be set in " +:+ fn)).
Proof. by exists fn. Qed.

Lemma both_empty_false unchanged added :
  ¬ (unchanged = [] ∧ added = []) →
  Lodash.isEmpty unchanged && Lodash.isEmpty added = false.
Proof.
  intros Hne. destruct unchanged, added; try done. by destruct Hne.
Qed.

Lemma promise_all_create (coll : collection) tx (f : object → object) added :
  ∀ s, ∃ models,
    promise_all ((λ ident, create coll (f ident) tx) <$> added) s =
    (Resolved models,
     Store (next_id s + Z.of_nat (length added))%Z
       (calls s ++
        create_trace (model_get (parent coll) "id") (relation coll) tx
          (next_id s) (f <$> added))).
Proof.
  induction added as [|ident added IH]; intros s; simpl.
  - exists []. unfold resolve. destruct s as [n cs]. simpl.
    by rewrite Z.add_0_r, app_nil_r.
  - match goal with |- context [promise_all ?ps ?s1] =>
      destruct (IH s1) as (models & Hall) end.
    unfold fmap in Hall. rewrite Hall.
    eexists. simpl. f_equal. f_equal; [lia|]. by rewrite <-app_assoc.
Qed.

Lemma created_rows_create_trace owner rel tx id rows :
  (created_rows (create_trace owner rel tx id rows)).*1 = rows.
Proof.
  revert id. induction rows as [|attrs rows IH]; intros id; simpl; [done|].
  by rewrite IH.
Qed.



(** The whole run of [createNewSetWithItems] on partitions that are not
    both empty. *)
Lemma createNewSetWithItems_trace orm tx SetModel unchanged added rel idAttr s :
  rel ≠ "" → ¬ (unchanged = [] ∧ added = []) →
  ∃ s',
    createNewSetWithItems orm tx SetModel unchanged added (Some rel) idAttr s =
    (Resolved (Some (Model {[ "id" := VNum (next_id s) ]})), s') ∧
    calls s' =
      calls s ++
      setup_trace SetModel rel tx (next_id s)
        (Lodash.map_property unchanged (default "id" idAttr)) ++
      create_trace (VNum (next_id s)) rel tx (next_id s + 1)%Z
        ((λ ident, Lodash.omit ident (default "id" idAttr)) <$> added).
Proof.
  intros Hrel Hne. unfold createNewSetWithItems.
  destruct rel as [|c rel]; [done|]. rewrite both_empty_false by done.
  unfold await, save, fetch, attach, related, log. simpl.
  match goal with |- context [promise_all ?ps ?s1] =>
    destruct (promise_all_create
                (Collection (Model (<["id" := VNum (next_id s)]> ∅))
                   (String c rel))
                tx (λ ident, Lodash.omit ident (default "id" idAttr)) added s1)
      as (models & Hall) end.
  simpl in Hall. rewrite Hall. eexists. split; [reflexivity|]. simpl.
  unfold model_get, get. simpl. rewrite lookup_insert_eq. simpl.
  by rewrite <-!app_assoc.
Qed.


Lemma attribute_item_textValue ident :
  attribute_item ident →
  member (get ident "value") "textValue" = Some (textValue_of ident).
Proof.
  intros (ref & props & Hvalue). unfold textValue_of, get.
  by rewrite Hvalue.
Qed.


Lemma no_value_not_attribute_item ident :
  attribute_item ident → ¬ no_value ident.
Proof.
  intros Hitem Hno. unfold no_value in Hno.
  by rewrite (attribute_item_textValue ident Hitem) in Hno.
Qed.



(** [_.map] issues the creation of every attribute row, in array order. *)
Lemma issue_all_attributes orm (coll : collection) tx added : ∀ s,
  issue_all (create_attribute_with_value orm tx coll <$> added) s =
  (continuations orm tx (next_id s) added,
   Store (next_id s + Z.of_nat (length added))%Z
     (calls s ++
      create_trace (model_get (parent coll) "id") (relation coll) tx
        (next_id s) ((λ ident, Lodash.pick ident "attributeType") <$> added))).
Proof.
  induction added as [|ident added IH]; intros s.
  - destruct s as [n cs]. simpl. by rewrite Z.add_0_r, app_nil_r.
  - rewrite !fmap_cons. cbn [issue_all continuations create_trace].
    unfold create_attribute_with_value at 1. cbn [issued resumed].
    unfold create at 1. rewrite IH. cbn [next_id calls].
    f_equal. f_equal; [rewrite length_cons; lia|]. by rewrite <-app_assoc.
Qed.

(** The callbacks then resume one after the other. *)
Lemma promise_all_continuations orm tx added : ∀ id s,
  ∃ r s',
    promise_all (continuations orm tx id added) s = (r, s') ∧
    calls s' = calls s ++ value_trace orm tx id (next_id s) added ∧
    (Exists no_value added →
     r = Rejected (TypeError "Cannot read properties of undefined")) ∧
    (Forall attribute_item added → ∃ models, r = Resolved models).
Proof.
  induction added as [|ident added IH]; intros id s.
  - exists (Resolved []), s. simpl. rewrite app_nil_r.
    split; [done|]. split; [done|]. split; [by intros ?%Exists_nil|].
    intros _. by exists [].
  - cbn [continuations promise_all value_trace].
    unfold save_text_value at 1. unfold no_value.
    destruct (member (get ident "value") "textValue") as [tv|] eqn:Htv.
    + unfold await, save, resolve. cbn [next_id calls].
      match goal with |- context [promise_all ?ps ?s1] =>
        destruct (IH (id + 1)%Z s1) as (r & s' & -> & Hcalls & Hrej & Hres) end.
      cbn [next_id calls] in Hcalls.
      eexists _, s'. split; [reflexivity|]. split; [|split].
      * rewrite Hcalls. unfold model_get, get. cbn [attributes].
        rewrite lookup_insert_eq. cbn [default]. by rewrite <-app_assoc.
      * intros [Hbad|Hbad]%Exists_cons; [congruence|]. by rewrite (Hrej Hbad).
      * intros [_ Hall]%Forall_cons. destruct (Hres Hall) as (models & ->).
        by eexists.
    + unfold throw.
      match goal with |- context [promise_all ?ps ?s1] =>
        destruct (IH (id + 1)%Z s1) as (r & s' & -> & Hcalls & Hrej & Hres) end.
      eexists _, s'. split; [reflexivity|]. split; [done|]. split; [done|].
      intros [Hitem _]%Forall_cons.
      by destruct (no_value_not_attribute_item ident Hitem).
Qed.



(** The whole run of the relationship-attribute variant, whatever the
    added items look like. *)
Lemma createNewRelationshipAttributeSetWithItems_trace
    orm tx SetModel unchanged added rel idAttr s :
  rel ≠ "" → ¬ (unchanged = [] ∧ added = []) →
  ∃ r s',
    createNewRelationshipAttributeSetWithItems
      orm tx SetModel unchanged added (Some rel) idAttr s = (r, s') ∧
    calls s' =
      calls s ++
      setup_trace SetModel rel tx (next_id s)
        (Lodash.map_property unchanged (default "id" idAttr)) ++
      create_trace (VNum (next_id s)) rel tx (next_id s + 1)%Z
        ((λ ident, Lodash.pick ident "attributeType") <$> added) ++
      value_trace orm tx (next_id s + 1)%Z
        (next_id s + 1 + Z.of_nat (length added))%Z added ∧
    (Exists no_value added →
     r = Rejected (TypeError "Cannot read properties of undefined")) ∧
    (Forall attribute_item added →
     r = Resolved (Some (Model {[ "id" := VNum (next_id s) ]}))).
Proof.
  intros Hrel Hne. unfold createNewRelationshipAttributeSetWithItems.
  destruct rel as [|c rel]; [done|]. cbv zeta.
  rewrite both_empty_false by done.
  unfold await, save, fetch, attach, related, log, promise_all_async.
  cbn [next_id calls]. rewrite issue_all_attributes.
  cbn [next_id calls parent relation].
  match goal with |- context [promise_all (continuations _ _ ?id _) ?s1] =>
    destruct (promise_all_continuations orm tx added id s1)
      as (r & s' & -> & Hcalls & Hrej & Hres) end.
  cbn [next_id calls] in Hcalls.
  unfold model_get, get in Hcalls. cbn [attributes] in Hcalls.
  rewrite lookup_insert_eq in Hcalls. cbn [default] in Hcalls.
  destruct r as [models|e].
  - eexists _, s'. split; [reflexivity|]. split; [|split].
    + rewrite Hcalls. by rewrite <-!app_assoc.
    + intros Hbad. by specialize (Hrej Hbad).
    + done.
  - eexists _, s'. split; [reflexivity|]. split; [|split].
    + rewrite Hcalls. by rewrite <-!app_assoc.
    + intros Hbad. specialize (Hrej Hbad). by injection Hrej as ->.
    + intros Hall. by destruct (Hres Hall).
Qed.

End MaterialiserFacts.

Lemma saved_rows_app cs cs' :
  saved_rows (cs ++ cs') = saved_rows cs ++ saved_rows cs'.
Proof. apply omap_app. Qed.

Lemma created_rows_app cs cs' :
  created_rows (cs ++ cs') = created_rows cs ++ created_rows cs'.
Proof. apply omap_app. Qed.

Lemma attached_ids_app cs cs' :
  attached_ids (cs ++ cs') = attached_ids cs ++ attached_ids cs'.
Proof. unfold attached_ids. by rewrite omap_app, join_app. Qed.



(** Two stored aliases relinked and two aliases added, one of which came
    with an id: the ids 1 and 3 are attached, and the rows created have
    no id. *)
Example scenario_relink_and_add :
  calls (createNewSetWithItems (paths := Samples.paths) Samples.orm 7%nat
           "AliasSet" [Samples.stored_alias; Samples.stored_other_alias]
           [Samples.added_alias_with_id; Samples.other_alias]
           (Some "aliases") None Samples.empty_store).2 =
  [ ModelSave "AliasSet" ∅ None 7%nat 1;
    CollectionFetch (VNum 1) "aliases" 7%nat;
    CollectionAttach (VNum 1) "aliases" [VNum 1; VNum 3] 7%nat;
    CollectionCreate (VNum 1) "aliases"
      {[ "name" := VStr "c"; "sortName" := VStr "c" ]} 7%nat 2;
    CollectionCreate (VNum 1) "aliases" {[ "name" := VStr "b" ]} 7%nat 3 ].
Proof. vm_compute. reflexivity. Qed.


(** C3.  For every call to either materialiser with a non-empty
    [itemsAttribute] and both partitions empty, the result is [null] and
    the store is left as it was: no call reaches the persistence layer. *)
Theorem empty_partitions_no_set {paths : Lodash.Paths} (orm : ORM)
    (tx : Transaction)
    (SetModel : model_class) (rel : string) (idAttr : option string)
    (s : store) :
  rel ≠ "" →
  createNewSetWithItems orm tx SetModel [] [] (Some rel) idAttr s =
    (Resolved None, s) ∧
  createNewRelationshipAttributeSetWithItems
    orm tx SetModel [] [] (Some rel) idAttr s = (Resolved None, s).
Proof. intros Hrel. by destruct rel. Qed.

Lemma empty_partitions_no_set_witness :
  createNewSetWithItems (paths := Samples.paths) Samples.orm 7%nat
    "AliasSet" [] []
    (Some "aliases") None Samples.empty_store =
    (Resolved None, Samples.empty_store) ∧
  createNewRelationshipAttributeSetWithItems (paths := Samples.paths)
    Samples.orm 7%nat
    "RelationshipAttributeSet" [] [] (Some "relationshipAttributes") (Some "id")
    Samples.empty_store = (Resolved None, Samples.empty_store).
Proof.
  split.
  - apply (empty_partitions_no_set (paths := Samples.paths) Samples.orm 7%nat "AliasSet"
             "aliases" None Samples.empty_store). discriminate.
  - apply (empty_partitions_no_set (paths := Samples.paths) Samples.orm 7%nat
             "RelationshipAttributeSet" "relationshipAttributes" (Some "id")
             Samples.empty_store). discriminate.
Defined.




(** Scenario D, run: two added relationship attributes with text values x
    and y.  Both attribute rows are created before either callback
    resumes; then each value row is saved with the id of its attribute
    row. *)
Example scenario_two_text_values :
  calls (createNewRelationshipAttributeSetWithItems (paths := Samples.paths)
           Samples.orm 7%nat "RelationshipAttributeSet" []
           [Samples.attribute_x; Samples.attribute_y]
           (Some "relationshipAttributes") (Some "id")
           Samples.empty_store).2 =
  [ ModelSave "RelationshipAttributeSet" ∅ None 7%nat 1;
    CollectionFetch (VNum 1) "relationshipAttributes" 7%nat;
    CollectionAttach (VNum 1) "relationshipAttributes" [] 7%nat;
    CollectionCreate (VNum 1) "relationshipAttributes"
      {[ "attributeType" := VNum 1 ]} 7%nat 2;
    CollectionCreate (VNum 1) "relationshipAttributes"
      {[ "attributeType" := VNum 2 ]} 7%nat 3;
    ModelSave "RelationshipAttributeTextValue"
      {[ "attributeId" := VNum 2; "textValue" := VStr "x" ]}
      (Some "insert") 7%nat 4;
    ModelSave "RelationshipAttributeTextValue"
      {[ "attributeId" := VNum 3; "textValue" := VStr "y" ]}
      (Some "insert") 7%nat 5 ].
Proof. vm_compute. reflexivity. Qed.


(** C6.  For every call to either materialiser in which [itemsAttribute]
    is omitted or is the empty string, the promise rejects with the
    [InvalidArgument] error of that function, and the store is left as it
    was: the failure comes before any call to the persistence layer. *)
Theorem blank_itemsAttribute_rejected {paths : Lodash.Paths} (orm : ORM)
    (tx : Transaction)
    (SetModel : model_class) (unchanged added : list object)
    (itemsAttribute : option string) (idAttr : option string) (s : store) :
  blank itemsAttribute →
  (∃ e, InvalidArgument e ∧
        createNewSetWithItems
          orm tx SetModel unchanged added itemsAttribute idAttr s =
        (Rejected e, s)) ∧
  (∃ e, InvalidArgument e ∧
        createNewRelationshipAttributeSetWithItems
          orm tx SetModel unchanged added itemsAttribute idAttr s =
        (Rejected e, s)).
Proof.
  intros Hblank.
  split; eexists; (split; [apply itemsAttribute_error_InvalidArgument|]).
  - by apply createNewSetWithItems_blank.
  - by apply createNewRelationshipAttributeSetWithItems_blank.
Qed.

Lemma blank_itemsAttribute_rejected_witness :
  (∃ e, InvalidArgument e ∧
        createNewSetWithItems (paths := Samples.paths) Samples.orm 7%nat "AliasSet"
          [Samples.stored_alias] [Samples.other_alias] None None
          Samples.empty_store = (Rejected e, Samples.empty_store)) ∧
  (∃ e, InvalidArgument e ∧
        createNewRelationshipAttributeSetWithItems (paths := Samples.paths)
          Samples.orm 7%nat
          "AliasSet" [Samples.stored_alias] [Samples.other_alias] None None
          Samples.empty_store = (Rejected e, Samples.empty_store)).
Proof.
  apply (blank_itemsAttribute_rejected (paths := Samples.paths)).
  left. reflexivity.
Defined.

(** C10.  In both materialisers the check of [itemsAttribute] comes before
    the short-circuit on empty partitions: with [itemsAttribute] omitted
    or empty and both partitions empty, the promise rejects with the
    [itemsAttribute] error and does not resolve to [null]. *)
Theorem itemsAttribute_checked_first {paths : Lodash.Paths} (orm : ORM)
    (tx : Transaction)
    (SetModel : model_class) (itemsAttribute : option string)
    (idAttr : option string) (s : store) :
  blank itemsAttribute →
  let r1 :=
    createNewSetWithItems orm tx SetModel [] [] itemsAttribute idAttr s in
  let r2 := createNewRelationshipAttributeSetWithItems
              orm tx SetModel [] [] itemsAttribute idAttr s in
  (∃ e, InvalidArgument e ∧ r1 = (Rejected e, s)) ∧ r1.1 ≠ Resolved None ∧
  (∃ e, InvalidArgument e ∧ r2 = (Rejected e, s)) ∧ r2.1 ≠ Resolved None.
Proof.
  intros Hblank r1 r2. subst r1 r2.
  rewrite createNewSetWithItems_blank,
    createNewRelationshipAttributeSetWithItems_blank by done.
  repeat split; try done;
    eexists; (split; [apply itemsAttribute_error_InvalidArgument | done]).
Qed.

Lemma itemsAttribute_checked_first_witness :
  let r1 := createNewSetWithItems (paths := Samples.paths) Samples.orm 7%nat "AliasSet" [] []
              (Some "") None Samples.empty_store in
  let r2 := createNewRelationshipAttributeSetWithItems (paths := Samples.paths)
          Samples.orm 7%nat
              "AliasSet" [] [] (Some "") None Samples.empty_store in
  (∃ e, InvalidArgument e ∧ r1 = (Rejected e, Samples.empty_store)) ∧
  r1.1 ≠ Resolved None ∧
  (∃ e, InvalidArgument e ∧ r2 = (Rejected e, Samples.empty_store)) ∧
  r2.1 ≠ Resolved None.
Proof.
  apply (itemsAttribute_checked_first (paths := Samples.paths)).
  right. reflexivity.
Defined.

(** The guard is JavaScript truthiness: a string of spaces is not empty,
    passes it, and reaches the short-circuit. *)
Example spaces_pass_the_guard :
  createNewSetWithItems (paths := Samples.paths) Samples.orm 7%nat "AliasSet" [] [] (Some " ") None
    Samples.empty_store = (Resolved None, Samples.empty_store).
Proof. reflexivity. Qed.

(** An added relationship attribute without a [value] has its row created
    and then rejects the promise when [value.textValue] is read. *)
Example attribute_without_value :
  createNewRelationshipAttributeSetWithItems (paths := Samples.paths)
          Samples.orm 7%nat
    "RelationshipAttributeSet" [] [Samples.form_alias]
    (Some "relationshipAttributes") (Some "id") Samples.empty_store =
  (Rejected (TypeError "Cannot read properties of undefined"),
   Store 3
     [ ModelSave "RelationshipAttributeSet" ∅ None 7%nat 1;
       CollectionFetch (VNum 1) "relationshipAttributes" 7%nat;
       CollectionAttach (VNum 1) "relationshipAttributes" [] 7%nat;
       CollectionCreate (VNum 1) "relationshipAttributes" ∅ 7%nat 2 ]).
Proof. vm_compute. reflexivity. Qed.


(** * Further properties of the differ *)

Section DifferOrder.
Context {Item : Type} (cmp : Item → Item → bool).
Implicit Types (O N arr acc other : list Item) (x : Item).

Lemma uniq_loop_sublist arr acc :
  ∃ new, Lodash.baseUniq_loop cmp arr acc = acc ++ new ∧ new `sublist_of` arr.
Proof.
  revert acc. induction arr as [|v arr IH]; intros acc; simpl.
  - exists []. by rewrite app_nil_r.
  - destruct (negb _).
    + destruct (IH (acc ++ [v])) as (new & -> & Hsub). exists (v :: new).
      rewrite <-app_assoc. split; [done | by apply sublist_skip].
    + destruct (IH acc) as (new & -> & Hsub). exists new.
      split; [done | by apply sublist_cons].
Qed.

Lemma uniqWith_sublist arr : Lodash.uniqWith arr cmp `sublist_of` arr.
Proof.
  rewrite uniqWith_baseUniq. unfold Lodash.baseUniq.
  by destruct (uniq_loop_sublist arr []) as (new & -> & Hsub).
Qed.

Lemma intersection_loop_sublist other m arr acc :
  ∃ new, Lodash.baseIntersection_loop cmp other m arr acc = acc ++ new ∧
         new `sublist_of` arr.
Proof.
  revert acc. induction arr as [|v arr IH]; intros acc; simpl.
  - exists []. by rewrite app_nil_r.
  - case_bool_decide.
    2:{ exists []. rewrite app_nil_r. split; [done | apply sublist_nil_l]. }
    destruct (negb (Lodash.arrayIncludesWith acc v cmp)).
    2:{ destruct (IH acc) as (new & -> & Hsub). exists new.
        split; [done | by apply sublist_cons]. }
    destruct (negb _).
    + destruct (IH acc) as (new & -> & Hsub). exists new.
      split; [done | by apply sublist_cons].
    + destruct (IH (acc ++ [v])) as (new & -> & Hsub). exists (v :: new).
      rewrite <-app_assoc. split; [done | by apply sublist_skip].
Qed.

Lemma intersectionWith_sublist arr other :
  Lodash.intersectionWith arr other cmp `sublist_of` arr.
Proof.
  unfold Lodash.intersectionWith, Lodash.baseIntersection.
  by destruct (intersection_loop_sublist other
                 (length arr `min` length other)%nat arr [])
    as (new & -> & Hsub).
Qed.

Lemma differenceWith_sublist arr values :
  Lodash.differenceWith arr values cmp `sublist_of` arr.
Proof.
  rewrite differenceWith_filter.
  induction arr as [|v arr IH]; simpl; [done|].
  destruct (negb _); [by apply sublist_skip | by apply sublist_cons].
Qed.

Lemma intersection_loop_length other m arr acc :
  (length acc ≤ m)%nat →
  (length (Lodash.baseIntersection_loop cmp other m arr acc) ≤ m)%nat.
Proof.
  revert acc. induction arr as [|v arr IH]; intros acc Hacc; simpl; [done|].
  case_bool_decide; [|done].
  destruct (negb (Lodash.arrayIncludesWith acc v cmp)); [|by apply IH].
  destruct (negb _); apply IH; [done|]. rewrite length_app. simpl. lia.
Qed.
End DifferOrder.

(** X1.  For any comparator, each result of the differ keeps the order of
    the array it is drawn from: the unchanged and the removed items are
    sublists of the old array, the added items a sublist of the new one. *)
Theorem differ_keeps_order {Item : Type} (cmp : Item → Item → bool)
    (O N : list Item) :
  getUnchangedItems O N cmp `sublist_of` O ∧
  getAddedItems O N cmp `sublist_of` N ∧
  getRemovedItems O N cmp `sublist_of` O.
Proof.
  unfold getUnchangedItems, getAddedItems, getRemovedItems. repeat split.
  - etrans; [apply uniqWith_sublist | apply intersectionWith_sublist].
  - etrans; [apply uniqWith_sublist | apply differenceWith_sublist].
  - etrans; [apply uniqWith_sublist | apply differenceWith_sublist].
Qed.

(** X2.  For any comparator, no item of a result of the differ is equal,
    under the comparator, to an item that comes before it in that result. *)
Theorem differ_results_distinct {Item : Type} (cmp : Item → Item → bool)
    (O N : list Item) :
  distinct_under cmp (getUnchangedItems O N cmp) ∧
  distinct_under cmp (getAddedItems O N cmp) ∧
  distinct_under cmp (getRemovedItems O N cmp).
Proof. repeat split; apply uniqWith_distinct. Qed.

(** X3.  For any comparator: every unchanged item is equal to some item of
    the new array, no added item is equal to an item of the old array, and
    no removed item is equal to an item of the new array (the item under
    test being the comparator's first argument). *)
Theorem differ_results_sound {Item : Type} (cmp : Item → Item → bool)
    (O N : list Item) :
  (∀ u, u ∈ getUnchangedItems O N cmp → ∃ n, n ∈ N ∧ cmp u n = true) ∧
  (∀ a, a ∈ getAddedItems O N cmp → ∀ o, o ∈ O → cmp a o = false) ∧
  (∀ r, r ∈ getRemovedItems O N cmp → ∀ n, n ∈ N → cmp r n = false).
Proof.
  repeat split.
  - intros u [_ Hu]%unchanged_elem. by apply includes_true.
  - intros a [_ Ha]%added_elem o Ho.
    rewrite includes_false, Forall_forall in Ha. by apply Ha.
  - intros r [_ Hr]%(added_elem cmp N O) n Hn.
    rewrite includes_false, Forall_forall in Hr. by apply Hr.
Qed.

(** X4.  For any comparator, there are at most as many unchanged items as
    the shorter of the two arrays has items, at most as many added items
    as the new array has, and at most as many removed items as the old
    array has. *)
Theorem differ_result_lengths {Item : Type} (cmp : Item → Item → bool)
    (O N : list Item) :
  (length (getUnchangedItems O N cmp) ≤ length O `min` length N)%nat ∧
  (length (getAddedItems O N cmp) ≤ length N)%nat ∧
  (length (getRemovedItems O N cmp) ≤ length O)%nat.
Proof.
  unfold getUnchangedItems, getAddedItems, getRemovedItems. repeat split.
  - etrans; [apply sublist_length, uniqWith_sublist|].
    apply intersection_loop_length. simpl. lia.
  - etrans; apply sublist_length;
      [apply uniqWith_sublist | apply differenceWith_sublist].
  - etrans; apply sublist_length;
      [apply uniqWith_sublist | apply differenceWith_sublist].
Qed.

(** X5.  For any comparator: with an empty old array nothing is unchanged
    or removed and the added items are the new array deduplicated; with an
    empty new array nothing is unchanged or added and the removed items
    are the old array deduplicated. *)
Theorem differ_empty_inputs {Item : Type} (cmp : Item → Item → bool)
    (L : list Item) :
  getUnchangedItems [] L cmp = [] ∧
  getRemovedItems [] L cmp = [] ∧
  getAddedItems [] L cmp = Lodash.uniqWith L cmp ∧
  getUnchangedItems L [] cmp = [] ∧
  getAddedItems L [] cmp = [] ∧
  getRemovedItems L [] cmp = Lodash.uniqWith L cmp.
Proof.
  assert (Lodash.differenceWith L [] cmp = L) as Hdiff.
  { rewrite differenceWith_filter. induction L as [|x L IH]; simpl; [done|].
    by f_equal. }
  assert (Lodash.intersectionWith L [] cmp = []) as Hinter.
  { unfold Lodash.intersectionWith, Lodash.baseIntersection.
    rewrite Nat.min_0_r. by destruct L. }
  unfold getUnchangedItems, getAddedItems, getRemovedItems.
  rewrite Hdiff, Hinter. by repeat split.
Qed.

Section DifferEquivalence.
Context {Item : Type} (cmp : Item → Item → bool) (O N : list Item).
Context (Hequiv : equivalence_on (O ++ N) cmp).
Implicit Types (x u r n o : Item) (L : list Item).

(** An item of the old array with a partner in the new one is equal to an
    unchanged item. *)
Lemma unchanged_represents o :
  o ∈ O → Lodash.arrayIncludesWith N o cmp = true →
  ∃ u, u ∈ getUnchangedItems O N cmp ∧ cmp o u = true.
Proof.
  destruct Hequiv as [Hrefl Hsym Htrans]. intros Ho HNo.
  destruct (intersectionWith_covers cmp (O ++ N) Hsym Htrans Hrefl O N o)
    as (r & Hr & Hor); [set_solver | set_solver | done | done |].
  assert (r ∈ O) by (by apply intersectionWith_elem in Hr as [? _]).
  destruct (uniqWith_covers cmp (Lodash.intersectionWith O N cmp) r)
    as (u & Hu & Hru); [apply Hrefl; set_solver | done |].
  exists u. split; [done|].
  assert (u ∈ O) by (by apply unchanged_elem in Hu as [? _]).
  apply (Htrans o r u); [set_solver..| done | done].
Qed.

(** An item of [L] without a partner in [L'] is equal to an item of the
    deduplicated difference. *)
Lemma difference_represents L L' x :
  L ⊆ O ++ N → x ∈ L → Lodash.arrayIncludesWith L' x cmp = false →
  ∃ a, a ∈ Lodash.uniqWith (Lodash.differenceWith L L' cmp) cmp ∧
       cmp x a = true.
Proof.
  destruct Hequiv as [Hrefl _ _]. intros HL Hx Hnone.
  apply uniqWith_covers; [apply Hrefl; set_solver|].
  by apply differenceWith_elem.
Qed.

Lemma new_item_represented n :
  n ∈ N →
  ∃ x, x ∈ getUnchangedItems O N cmp ++ getAddedItems O N cmp ∧
       cmp n x = true.
Proof.
  destruct Hequiv as [Hrefl Hsym Htrans]. intros Hn.
  destruct (Lodash.arrayIncludesWith O n cmp) eqn:HOn.
  - apply includes_true in HOn as (o & Ho & Hno).
    assert (cmp o n = true) as Hon by (apply Hsym; [set_solver..|done]).
    destruct (unchanged_represents o) as (u & Hu & Hou);
      [done | apply includes_true; by exists n |].
    exists u. split; [set_solver|].
    assert (u ∈ O) by (by apply unchanged_elem in Hu as [? _]).
    apply (Htrans n o u); [set_solver..| done | done].
  - destruct (difference_represents N O n) as (a & Ha & Hna);
      [set_solver | done | done |].
    exists a. split; [|done]. apply elem_of_app. by right.
Qed.

Lemma unchanged_added_distinct :
  distinct_under cmp (getUnchangedItems O N cmp ++ getAddedItems O N cmp).
Proof.
  apply distinct_under_app. split; [apply uniqWith_distinct|].
  split; [apply uniqWith_distinct|].
  intros u a [Hu _]%unchanged_elem [_ Ha]%added_elem.
  rewrite includes_false, Forall_forall in Ha. by apply Ha.
Qed.

(** Distinct items that each have a partner in [L'] are at most as many as
    the items of [L']. *)
Lemma distinct_partners_length L : ∀ L',
  L ⊆ O ++ N → L' ⊆ O ++ N →
  distinct_under cmp L →
  (∀ x, x ∈ L → ∃ y, y ∈ L' ∧ cmp x y = true) →
  (length L ≤ length L')%nat.
Proof.
  destruct Hequiv as [Hrefl Hsym Htrans].
  induction L as [|x L IH]; intros L' HL HL' Hd Hpartner; simpl; [lia|].
  destruct Hd as [Hx Hd].
  destruct (Hpartner x) as (y & Hy & Hxy); [left|].
  apply list_elem_of_split in Hy as (L1 & L2 & ->).
  rewrite length_app. simpl.
  assert (length L ≤ length (L1 ++ L2))%nat as Hlen;
    [|rewrite length_app in Hlen; lia].
  apply IH; [set_solver | set_solver | done |].
  intros x' Hx'. destruct (Hpartner x') as (y' & Hy' & Hxy'); [by right|].
  exists y'. split; [|done].
  apply elem_of_app in Hy' as [?|[->|?]%elem_of_cons];
    [set_solver | | set_solver].
  rewrite Forall_forall in Hx. specialize (Hx x' Hx'). simpl in Hx.
  rewrite (Htrans x' y x) in Hx; [done | set_solver.. | done |].
  apply Hsym; [set_solver.. | done].
Qed.
End DifferEquivalence.

Lemma equivalence_on_subseteq {Item : Type} (cmp : Item → Item → bool)
    (dom dom' : list Item) :
  dom' ⊆ dom → equivalence_on dom cmp → equivalence_on dom' cmp.
Proof.
  intros Hsub [Hrefl Hsym Htrans]. split.
  - intros x Hx. apply Hrefl. by apply Hsub.
  - intros x y Hx Hy. apply Hsym; by apply Hsub.
  - intros x y z Hx Hy Hz. apply Htrans; by apply Hsub.
Qed.

(** X6.  For a comparator that is an equivalence on the items of [O] and
    [N], the unchanged and the removed items split the old array the way
    the unchanged and the added items split the new one: they are disjoint
    under the comparator, and every item of [O] is equivalent to exactly
    one of them. *)
Theorem unchanged_removed_partition {Item : Type} (cmp : Item → Item → bool)
    (O N : list Item) :
  equivalence_on (O ++ N) cmp →
  disjoint_under cmp (getUnchangedItems O N cmp) (getRemovedItems O N cmp) ∧
  ∀ o, o ∈ O →
    length (equivalents cmp o
              (getUnchangedItems O N cmp ++ getRemovedItems O N cmp)) = 1%nat.
Proof.
  intros Hequiv. pose proof Hequiv as [Hrefl Hsym Htrans].
  set (U := getUnchangedItems O N cmp). set (R := getRemovedItems O N cmp).
  assert (U ⊆ O) as HU by (intros x Hx; by apply unchanged_elem in Hx as [? _]).
  assert (R ⊆ O) as HR
    by (intros x Hx; by apply (added_elem cmp N O) in Hx as [? _]).
  assert (∀ u r, u ∈ U → r ∈ R → cmp r u = false) as Hru.
  { intros u r Hu Hr. destruct (cmp r u) eqn:Heq; [|done].
    apply unchanged_elem in Hu as [Hu (n & Hn & Hun)%includes_true].
    apply (added_elem cmp N O) in Hr as [Hr Hnone].
    rewrite includes_false, Forall_forall in Hnone.
    rewrite <-(Hnone n Hn). symmetry.
    apply (Htrans r u n); [set_solver.. | done | done]. }
  split.
  - intros u r Hu Hr. split; [|by apply Hru].
    destruct (cmp u r) eqn:Hur; [|done].
    rewrite <-(Hru u r Hu Hr). symmetry. apply Hsym; [set_solver..|done].
  - intros o Ho. apply Nat.le_antisymm.
    + apply (equivalents_at_most_one cmp (O ++ N));
        [done | done | set_solver | set_solver |].
      apply distinct_under_app. split; [apply uniqWith_distinct|].
      split; [apply uniqWith_distinct | done].
    + destruct (Lodash.arrayIncludesWith N o cmp) eqn:HNo.
      * destruct (unchanged_represents cmp O N Hequiv o Ho HNo)
          as (u & Hu & Hou).
        apply (equivalents_at_least_one cmp o (U ++ R) u); [set_solver | done].
      * destruct (difference_represents cmp O N Hequiv O N o)
          as (r & Hr & Hor); [set_solver | done | done |].
        apply (equivalents_at_least_one cmp o (U ++ R) r); [|done].
        apply elem_of_app. by right.
Qed.

Lemma unchanged_removed_partition_witness :
  disjoint_under (getComparisonFunc ["name"])
    (getUnchangedItems [Samples.stored_alias; Samples.other_alias]
       [Samples.form_alias] (getComparisonFunc ["name"]))
    (getRemovedItems [Samples.stored_alias; Samples.other_alias]
       [Samples.form_alias] (getComparisonFunc ["name"])) ∧
  ∀ o, o ∈ [Samples.stored_alias; Samples.other_alias] →
    length (equivalents (getComparisonFunc ["name"]) o
              (getUnchangedItems [Samples.stored_alias; Samples.other_alias]
                 [Samples.form_alias] (getComparisonFunc ["name"]) ++
               getRemovedItems [Samples.stored_alias; Samples.other_alias]
                 [Samples.form_alias] (getComparisonFunc ["name"]))) = 1%nat.
Proof.
  apply unchanged_removed_partition, getComparisonFunc_equivalence.
  repeat constructor; intros f Hf%list_elem_of_singleton; subst f;
    vm_compute; discriminate.
Defined.

(** X7.  For a comparator that is an equivalence on the items of [O] and
    [N], swapping the two arrays gives the same unchanged classes: every
    item that is unchanged from [O] to [N] is equivalent to exactly one
    item that is unchanged from [N] to [O]. *)
Theorem unchanged_sides_correspond {Item : Type} (cmp : Item → Item → bool)
    (O N : list Item) (u : Item) :
  equivalence_on (O ++ N) cmp →
  u ∈ getUnchangedItems O N cmp →
  length (equivalents cmp u (getUnchangedItems N O cmp)) = 1%nat.
Proof.
  intros Hequiv Hu. pose proof Hequiv as [Hrefl Hsym Htrans].
  assert (equivalence_on (N ++ O) cmp) as Hequiv'
    by (eapply equivalence_on_subseteq; [|done]; set_solver).
  apply unchanged_elem in Hu as [Hu (n & Hn & Hun)%includes_true].
  assert (getUnchangedItems N O cmp ⊆ N) as HU'
    by (intros x Hx; by apply unchanged_elem in Hx as [? _]).
  apply Nat.le_antisymm.
  - apply (equivalents_at_most_one cmp (O ++ N));
      [done | done | set_solver | set_solver | apply uniqWith_distinct].
  - destruct (unchanged_represents cmp N O Hequiv' n Hn) as (u' & Hu' & Hnu').
    { apply includes_true. exists u. split; [done|].
      apply Hsym; [set_solver..|done]. }
    apply (equivalents_at_least_one cmp u _ u'); [done|].
    apply (Htrans u n u'); [set_solver.. | done | done].
Qed.

Lemma unchanged_sides_correspond_witness :
  length (equivalents (getComparisonFunc ["name"]) Samples.stored_alias
            (getUnchangedItems [Samples.form_alias; Samples.other_alias]
               [Samples.stored_alias] (getComparisonFunc ["name"]))) = 1%nat.
Proof.
  apply (unchanged_sides_correspond (getComparisonFunc ["name"])
           [Samples.stored_alias] [Samples.form_alias; Samples.other_alias]).
  - apply getComparisonFunc_equivalence.
    repeat constructor; intros f Hf%list_elem_of_singleton; subst f;
      vm_compute; discriminate.
  - vm_compute. left.
Defined.

(** X8.  For a comparator that is an equivalence on the items of [O] and
    [N], the unchanged and the added items together are exactly as many as
    the distinct items of the new array. *)
Theorem unchanged_added_count {Item : Type} (cmp : Item → Item → bool)
    (O N : list Item) :
  equivalence_on (O ++ N) cmp →
  (length (getUnchangedItems O N cmp) + length (getAddedItems O N cmp))%nat =
  length (Lodash.uniqWith N cmp).
Proof.
  intros Hequiv. pose proof Hequiv as [Hrefl Hsym Htrans].
  set (U := getUnchangedItems O N cmp). set (A := getAddedItems O N cmp).
  assert (U ⊆ O) as HU by (intros x Hx; by apply unchanged_elem in Hx as [? _]).
  assert (A ⊆ N) as HA by (intros x Hx; by apply added_elem in Hx as [? _]).
  assert (Lodash.uniqWith N cmp ⊆ N) as HN
    by (intros x Hx; by apply uniqWith_elem in Hx).
  rewrite <-length_app. apply Nat.le_antisymm.
  - apply (distinct_partners_length cmp O N Hequiv);
      [set_solver | set_solver | apply unchanged_added_distinct |].
    intros x [Hx|Hx]%elem_of_app.
    + apply unchanged_elem in Hx as [Hx (n & Hn & Hxn)%includes_true].
      destruct (uniqWith_covers cmp N n) as (r & Hr & Hnr);
        [apply Hrefl; set_solver | done |].
      exists r. split; [done|].
      apply (Htrans x n r); [set_solver.. | done | done].
    + apply uniqWith_covers; [apply Hrefl; set_solver | by apply HA].
  - apply (distinct_partners_length cmp O N Hequiv);
      [set_solver | set_solver | apply uniqWith_distinct |].
    intros n Hn. apply (new_item_represented cmp O N Hequiv). by apply HN.
Qed.

Lemma unchanged_added_count_witness :
  (length (getUnchangedItems [Samples.stored_alias]
             [Samples.form_alias; Samples.other_alias; Samples.other_alias]
             (getComparisonFunc ["name"])) +
   length (getAddedItems [Samples.stored_alias]
             [Samples.form_alias; Samples.other_alias; Samples.other_alias]
             (getComparisonFunc ["name"])))%nat =
  length (Lodash.uniqWith
            [Samples.form_alias; Samples.other_alias; Samples.other_alias]
            (getComparisonFunc ["name"])).
Proof.
  apply unchanged_added_count, getComparisonFunc_equivalence.
  repeat constructor; intros f Hf%list_elem_of_singleton; subst f;
    vm_compute; discriminate.
Defined.

(** * Further properties of the comparator *)

Lemma getComparisonFunc_same_reads (fields : list string) (a a' b b' : object) :
  (∀ f, f ∈ fields → get a f = get a' f) →
  (∀ f, f ∈ fields → get b f = get b' f) →
  getComparisonFunc fields a b = getComparisonFunc fields a' b'.
Proof.
  intros Ha Hb. apply eq_true_iff_eq. rewrite !getComparisonFunc_agree.
  unfold agree. split; intros H f Hf.
  - rewrite <-Ha, <-Hb by done. by apply H.
  - rewrite Ha, Hb by done. by apply H.
Qed.

(** X9.  A field that is not among the compared ones has no say: setting
    it, to any value and on either object, leaves the verdict of the
    comparator unchanged.  So a stored row and an id-less item of a form
    with the same compared fields are equal. *)
Theorem getComparisonFunc_ignores_other_fields (fields : list string)
    (a b : object) (k : string) (v : value) :
  k ∉ fields →
  getComparisonFunc fields (<[k := v]> a) b = getComparisonFunc fields a b ∧
  getComparisonFunc fields a (<[k := v]> b) = getComparisonFunc fields a b.
Proof.
  intros Hk.
  assert (∀ (x : object) f, f ∈ fields → get (<[k := v]> x) f = get x f)
    as Hget.
  { intros x f Hf. unfold get. rewrite lookup_insert_ne; [done|].
    intros ->. by apply Hk. }
  split; apply getComparisonFunc_same_reads; intros f Hf;
    rewrite ?Hget by done; done.
Qed.

Lemma getComparisonFunc_ignores_other_fields_witness :
  getComparisonFunc ["name"] (<["id" := VNum 1]> Samples.form_alias)
    Samples.form_alias =
  getComparisonFunc ["name"] Samples.form_alias Samples.form_alias ∧
  getComparisonFunc ["name"] Samples.form_alias
    (<["id" := VNum 1]> Samples.form_alias) =
  getComparisonFunc ["name"] Samples.form_alias Samples.form_alias.
Proof.
  apply getComparisonFunc_ignores_other_fields.
  intros Hin%list_elem_of_singleton. discriminate Hin.
Defined.

(** X10.  Every comparator built by [getComparisonFunc] is symmetric and
    transitive on all objects, and relates an object to itself exactly
    when none of the compared fields of the object holds [NaN]. *)
Theorem getComparisonFunc_partial_equivalence (fields : list string)
    (x y z : object) :
  getComparisonFunc fields x y = getComparisonFunc fields y x ∧
  (getComparisonFunc fields x y = true →
   getComparisonFunc fields y z = true →
   getComparisonFunc fields x z = true) ∧
  (getComparisonFunc fields x x = true ↔ nan_free fields x).
Proof.
  repeat split.
  - apply eq_true_iff_eq. split;
      apply (getComparisonFunc_symmetric fields [x; y]); set_solver.
  - apply (getComparisonFunc_transitive fields [x; y; z]); set_solver.
  - rewrite getComparisonFunc_agree. intros Hagree f Hf Hnan.
    specialize (Hagree f Hf). unfold agree in Hagree.
    by rewrite Hnan in Hagree.
  - intros Hfree. apply (getComparisonFunc_reflexive fields [x]); [|left].
    by constructor.
Qed.

(** X11.  The verdict of a comparator depends on the set of compared
    fields only: two lists with the same field names, in any order and
    with any repetitions, build the same comparator. *)
Theorem getComparisonFunc_fields_as_set (fields fields' : list string)
    (a b : object) :
  (∀ f, f ∈ fields ↔ f ∈ fields') →
  getComparisonFunc fields a b = getComparisonFunc fields' a b.
Proof.
  intros Hsame. apply eq_true_iff_eq. rewrite !getComparisonFunc_agree.
  split; intros H f Hf; apply H; by apply Hsame.
Qed.

Lemma getComparisonFunc_fields_as_set_witness :
  getComparisonFunc ["typeId"; "value"]
    Samples.nan_identifier Samples.stored_alias =
  getComparisonFunc ["value"; "typeId"; "value"]
    Samples.nan_identifier Samples.stored_alias.
Proof.
  apply getComparisonFunc_fields_as_set. intros f. set_solver.
Defined.

(** * Further properties of the materialisers *)

Section MaterialiserTraces.
Context {paths : Lodash.Paths}.
Implicit Types (orm : ORM) (tx : Transaction) (SetModel : model_class).
Implicit Types (unchanged added : list object) (s : store).

(** The three ways a call to a materialiser can go. *)
Lemma materialiser_cases (ia : option string) unchanged added :
  blank ia ∨
  (∃ rel, ia = Some rel ∧ rel ≠ "" ∧ unchanged = [] ∧ added = []) ∨
  (∃ rel, ia = Some rel ∧ rel ≠ "" ∧ ¬ (unchanged = [] ∧ added = [])).
Proof.
  destruct ia as [[|c rel]|]; [left; by right | | left; by left].
  right. destruct unchanged as [|u unchanged], added as [|a added].
  - left. by exists (String c rel).
  - right. exists (String c rel). repeat split; [done|]. by intros [_ ?].
  - right. exists (String c rel). repeat split; [done|]. by intros [? _].
  - right. exists (String c rel). repeat split; [done|]. by intros [? _].
Qed.


Lemma create_trace_transaction owner rel tx id rows :
  Forall (λ c, call_transaction c = tx) (create_trace owner rel tx id rows).
Proof.
  revert id. induction rows as [|attrs rows IH]; intros id; simpl;
    constructor; [done | apply IH].
Qed.


Lemma value_trace_transaction orm tx id vid added :
  Forall (λ c, call_transaction c = tx) (value_trace orm tx id vid added).
Proof.
  revert id vid. induction added as [|ident added IH]; intros id vid; simpl;
    [constructor|].
  destruct (member _ _); [constructor; [done|]|]; apply IH.
Qed.

Lemma created_rows_value_trace orm tx id vid added :
  created_rows (value_trace orm tx id vid added) = [].
Proof.
  revert id vid. induction added as [|ident added IH]; intros id vid; simpl;
    [done|].
  destruct (member _ _); simpl; apply IH.
Qed.


Lemma create_trace_on_new_set SetModel set_id rel tx id rows :
  Forall (on_new_set SetModel set_id rel)
    (create_trace (VNum set_id) rel tx id rows).
Proof.
  revert id. induction rows as [|attrs rows IH]; intros id; simpl;
    constructor; [done | apply IH].
Qed.

Lemma created_rows_setup_trace SetModel rel tx set_id ids :
  created_rows (setup_trace SetModel rel tx set_id ids) = [].
Proof. reflexivity. Qed.

Lemma saved_rows_setup_trace SetModel rel tx set_id ids :
  saved_rows (setup_trace SetModel rel tx set_id ids) =
  [(SetModel, ∅, set_id)].
Proof. reflexivity. Qed.

Lemma attached_ids_setup_trace SetModel rel tx set_id ids :
  attached_ids (setup_trace SetModel rel tx set_id ids) = ids.
Proof. unfold attached_ids. simpl. by rewrite app_nil_r. Qed.
End MaterialiserTraces.


(** X12.  Whatever the arguments, every call either materialiser makes on
    the persistence layer is made under the transaction it was given. *)
Theorem materialisers_stay_in_transaction {paths : Lodash.Paths}
    (orm : ORM) (tx : Transaction)
    (SetModel : model_class) (unchanged added : list object)
    (itemsAttribute idAttr : option string) (s : store) :
  (∃ new_calls,
     calls (createNewSetWithItems
              orm tx SetModel unchanged added itemsAttribute idAttr s).2 =
       calls s ++ new_calls ∧
     Forall (λ c, call_transaction c = tx) new_calls) ∧
  (∃ new_calls,
     calls (createNewRelationshipAttributeSetWithItems
              orm tx SetModel unchanged added itemsAttribute idAttr s).2 =
       calls s ++ new_calls ∧
     Forall (λ c, call_transaction c = tx) new_calls).
Proof.
  destruct (materialiser_cases itemsAttribute unchanged added)
    as [Hblank|[(rel & -> & Hrel & -> & ->)|(rel & -> & Hrel & Hne)]].
  - rewrite createNewSetWithItems_blank,
      createNewRelationshipAttributeSetWithItems_blank by done.
    split; exists []; by rewrite app_nil_r.
  - destruct rel; [done|]. split; exists []; by rewrite app_nil_r.
  - split.
    + destruct (createNewSetWithItems_trace orm tx SetModel unchanged added
                  rel idAttr s Hrel Hne) as (s' & -> & Hcalls).
      eexists. split; [exact Hcalls|].
      apply Forall_app. split; [by repeat constructor|].
      apply create_trace_transaction.
    + destruct (createNewRelationshipAttributeSetWithItems_trace
                  orm tx SetModel unchanged added rel idAttr s Hrel Hne)
        as (r & s' & -> & Hcalls & _).
      eexists. split; [exact Hcalls|].
      apply Forall_app. split; [by repeat constructor|].
      apply Forall_app. split; [apply create_trace_transaction|].
      apply value_trace_transaction.
Qed.


(** X13.  When [createNewSetWithItems] creates a Set, the model it
    returns is the saved Set row, and every other call it makes (the
    fetch, the attach and the creations) goes to the collection named by
    [itemsAttribute] of that very row. *)
Theorem createNewSetWithItems_targets_new_set {paths : Lodash.Paths}
    (orm : ORM) (tx : Transaction)
    (SetModel : model_class) (unchanged added : list object)
    (rel : string) (idAttr : option string) (s : store) :
  rel ≠ "" → ¬ (unchanged = [] ∧ added = []) →
  ∃ newSet new_calls s',
    createNewSetWithItems orm tx SetModel unchanged added (Some rel) idAttr s =
      (Resolved (Some newSet), s') ∧
    calls s' = calls s ++ new_calls ∧
    model_get newSet "id" = VNum (next_id s) ∧
    Forall (on_new_set SetModel (next_id s) rel) new_calls.
Proof.
  intros Hrel Hne.
  destruct (createNewSetWithItems_trace orm tx SetModel unchanged added
              rel idAttr s Hrel Hne) as (s' & Hrun & Hcalls).
  eexists _, _, s'. split; [exact Hrun|]. split; [exact Hcalls|].
  split; [done|].
  apply Forall_app. split; [by repeat constructor|].
  apply create_trace_on_new_set.
Qed.

Lemma createNewSetWithItems_targets_new_set_witness :
  ∃ newSet new_calls s',
    createNewSetWithItems (paths := Samples.paths) Samples.orm 7%nat
      "AliasSet"
      [Samples.stored_alias] [Samples.other_alias] (Some "aliases") None
      Samples.empty_store = (Resolved (Some newSet), s') ∧
    calls s' = calls Samples.empty_store ++ new_calls ∧
    model_get newSet "id" = VNum (next_id Samples.empty_store) ∧
    Forall (on_new_set "AliasSet" (next_id Samples.empty_store) "aliases")
      new_calls.
Proof.
  apply (createNewSetWithItems_targets_new_set (paths := Samples.paths));
    [discriminate|].
  intros [Hunchanged _]. discriminate Hunchanged.
Defined.


(** X14.  The relationship-attribute variant creates one attribute row
    per added item, well formed or not.  The row of the i-th item has the
    [attributeType] the item has (none when the item has none) and no
    other field: neither the id nor the value of the item is written to
    the attribute row, whatever [idAttribute] is. *)
Theorem attribute_rows_hold_only_type {paths : Lodash.Paths} (orm : ORM)
    (tx : Transaction) (SetModel : model_class)
    (unchanged added : list object) (rel : string) (idAttr : option string)
    (s : store) :
  rel ≠ "" → ¬ (unchanged = [] ∧ added = []) →
  ∃ new_calls,
    calls (createNewRelationshipAttributeSetWithItems
             orm tx SetModel unchanged added (Some rel) idAttr s).2 =
      calls s ++ new_calls ∧
    length (created_rows new_calls) = length added ∧
    ∀ i ident, added !! i = Some ident →
      ∃ row, (created_rows new_calls).*1 !! i = Some row ∧
             row !! "attributeType" = ident !! "attributeType" ∧
             ∀ k, k ≠ "attributeType" → row !! k = None.
Proof.
  intros Hrel Hne.
  destruct (createNewRelationshipAttributeSetWithItems_trace
              orm tx SetModel unchanged added rel idAttr s Hrel Hne)
    as (r & s' & -> & Hcalls & _).
  eexists. split; [exact Hcalls|].
  rewrite !created_rows_app, created_rows_setup_trace,
    created_rows_value_trace, app_nil_l, app_nil_r.
  assert ((created_rows
             (create_trace (VNum (next_id s)) rel tx (next_id s + 1)%Z
                ((λ ident, Lodash.pick ident "attributeType") <$> added))).*1 =
          (λ ident, Lodash.pick ident "attributeType") <$> added) as Hrows
    by apply created_rows_create_trace.
  split; [by rewrite <-(length_fmap fst), Hrows, length_fmap|].
  intros i ident Hi. exists (Lodash.pick ident "attributeType").
  rewrite Hrows, list_lookup_fmap, Hi. split; [done|].
  unfold Lodash.pick. destruct (ident !! "attributeType") as [v|] eqn:Htype.
  - split; [apply lookup_singleton_eq|].
    intros k Hk. by apply lookup_singleton_ne.
  - by split.
Qed.

Lemma attribute_rows_hold_only_type_witness :
  ∃ new_calls,
    calls (createNewRelationshipAttributeSetWithItems
             (paths := Samples.paths) Samples.orm 7%nat
             "RelationshipAttributeSet" []
             [Samples.attribute_x; Samples.attribute_bare;
              Samples.stored_alias]
             (Some "relationshipAttributes") None Samples.empty_store).2 =
      calls Samples.empty_store ++ new_calls ∧
    length (created_rows new_calls) =
      length [Samples.attribute_x; Samples.attribute_bare;
              Samples.stored_alias] ∧
    ∀ i ident,
      [Samples.attribute_x; Samples.attribute_bare; Samples.stored_alias]
        !! i = Some ident →
      ∃ row, (created_rows new_calls).*1 !! i = Some row ∧
             row !! "attributeType" = ident !! "attributeType" ∧
             ∀ k, k ≠ "attributeType" → row !! k = None.
Proof.
  apply (attribute_rows_hold_only_type (paths := Samples.paths));
    [discriminate|].
  intros [_ Hadded]. discriminate Hadded.
Defined.


(** X15.  When [value.textValue] cannot be read on some added item
    ([value] missing or [null]), the relationship-attribute variant
    rejects with a [TypeError]; by then the Set row has been saved and a
    row has been created for every added item, so the writes only go away
    with the caller's transaction. *)
Theorem attribute_without_value_rejects {paths : Lodash.Paths}
    (orm : ORM) (tx : Transaction)
    (SetModel : model_class) (unchanged added : list object)
    (rel : string) (idAttr : option string) (s : store) :
  rel ≠ "" → Exists no_value added →
  ∃ new_calls s',
    createNewRelationshipAttributeSetWithItems
      orm tx SetModel unchanged added (Some rel) idAttr s =
      (Rejected (TypeError "Cannot read properties of undefined"), s') ∧
    calls s' = calls s ++ new_calls ∧
    (SetModel, ∅, next_id s) ∈ saved_rows new_calls ∧
    length (created_rows new_calls) = length added.
Proof.
  intros Hrel Hbad.
  assert (¬ (unchanged = [] ∧ added = [])) as Hne.
  { intros [_ ->]. by apply Exists_nil in Hbad. }
  destruct (createNewRelationshipAttributeSetWithItems_trace
              orm tx SetModel unchanged added rel idAttr s Hrel Hne)
    as (r & s' & Hrun & Hcalls & Hrej & _).
  rewrite (Hrej Hbad) in Hrun.
  eexists _, s'. split; [exact Hrun|]. split; [exact Hcalls|].
  rewrite saved_rows_app, !created_rows_app, created_rows_setup_trace,
    created_rows_value_trace, saved_rows_setup_trace, app_nil_l, app_nil_r.
  split; [left|].
  rewrite <-(length_fmap fst), created_rows_create_trace.
  by rewrite length_fmap.
Qed.

Lemma attribute_without_value_rejects_witness :
  ∃ new_calls s',
    createNewRelationshipAttributeSetWithItems (paths := Samples.paths)
      Samples.orm 7%nat "RelationshipAttributeSet" []
      [Samples.attribute_bare; Samples.attribute_x]
      (Some "relationshipAttributes") None Samples.empty_store =
      (Rejected (TypeError "Cannot read properties of undefined"), s') ∧
    calls s' = calls Samples.empty_store ++ new_calls ∧
    ("RelationshipAttributeSet", ∅, next_id Samples.empty_store)
      ∈ saved_rows new_calls ∧
    length (created_rows new_calls) =
      length [Samples.attribute_bare; Samples.attribute_x].
Proof.
  apply (attribute_without_value_rejects (paths := Samples.paths));
    [discriminate|].
  left. reflexivity.
Defined.


(** * The differ feeding the materialiser *)

Section DifferThenMaterialise.
Context {Item : Type} (cmp : Item → Item → bool).
Implicit Types (O L : list Item).

Lemma diff_against_nothing L :
  getUnchangedItems L [] cmp = [] ∧ getAddedItems L [] cmp = [].
Proof.
  unfold getUnchangedItems, getAddedItems, Lodash.intersectionWith,
    Lodash.baseIntersection.
  rewrite Nat.min_0_r. split; [by destruct L | done].
Qed.

Lemma diff_against_self O :
  reflexive_on O cmp →
  getUnchangedItems O O cmp = Lodash.uniqWith O cmp ∧
  getAddedItems O O cmp = [].
Proof.
  intros Hrefl.
  assert (∀ x, x ∈ O → Lodash.arrayIncludesWith O x cmp = true) as Hself.
  { intros x Hx. apply includes_true. exists x. split; [done | by apply Hrefl]. }
  unfold getUnchangedItems, getAddedItems. split.
  - unfold Lodash.intersectionWith, Lodash.baseIntersection.
    rewrite intersection_loop_uniq; [|done | simpl; lia].
    fold (Lodash.baseUniq O cmp). rewrite <-uniqWith_baseUniq.
    apply uniqWith_idempotent.
  - rewrite differenceWith_filter, filter_none; [done|].
    apply Forall_forall. intros x Hx. by rewrite Hself.
Qed.

Lemma uniqWith_nonempty O : O ≠ [] → Lodash.uniqWith O cmp ≠ [].
Proof.
  destruct O as [|x O]; [done|]. intros _ Hnil.
  assert (x ∈ Lodash.uniqWith (x :: O) cmp) as Hx.
  { rewrite uniqWith_baseUniq. unfold Lodash.baseUniq. simpl.
    apply uniq_loop_keeps. left. }
  rewrite Hnil in Hx. inversion Hx.
Qed.
End DifferThenMaterialise.


(** X16.  Diffing any old collection against an empty new one and handing
    the unchanged and added items to either materialiser allocates
    nothing: the result is [null] and the persistence layer is not
    called. *)
Theorem cleared_set_allocates_nothing {paths : Lodash.Paths}
    (cmp : object → object → bool)
    (O : list object) (orm : ORM) (tx : Transaction) (SetModel : model_class)
    (rel : string) (idAttr : option string) (s : store) :
  rel ≠ "" →
  createNewSetWithItems orm tx SetModel
    (getUnchangedItems O [] cmp) (getAddedItems O [] cmp)
    (Some rel) idAttr s = (Resolved None, s) ∧
  createNewRelationshipAttributeSetWithItems orm tx SetModel
    (getUnchangedItems O [] cmp) (getAddedItems O [] cmp)
    (Some rel) idAttr s = (Resolved None, s).
Proof.
  intros Hrel. destruct (diff_against_nothing cmp O) as [-> ->].
  by destruct rel.
Qed.

Lemma cleared_set_allocates_nothing_witness :
  createNewSetWithItems (paths := Samples.paths) Samples.orm 7%nat "AliasSet"
    (getUnchangedItems [Samples.stored_alias] [] (getComparisonFunc ["name"]))
    (getAddedItems [Samples.stored_alias] [] (getComparisonFunc ["name"]))
    (Some "aliases") None Samples.empty_store =
    (Resolved None, Samples.empty_store) ∧
  createNewRelationshipAttributeSetWithItems (paths := Samples.paths)
    Samples.orm 7%nat "AliasSet"
    (getUnchangedItems [Samples.stored_alias] [] (getComparisonFunc ["name"]))
    (getAddedItems [Samples.stored_alias] [] (getComparisonFunc ["name"]))
    (Some "aliases") None Samples.empty_store =
    (Resolved None, Samples.empty_store).
Proof.
  apply (cleared_set_allocates_nothing (paths := Samples.paths)).
  discriminate.
Defined.


(** X17.  Diffing a non-empty collection against itself, with a
    comparator that is reflexive on its items, and handing the result to
    [createNewSetWithItems] (with an [idAttribute] that names a field)
    creates a new Set that only relinks: no item row is created, and the
    ids attached are what the collection's distinct items, in their
    order, hold in their [idAttribute] field. *)
Theorem unchanged_collection_only_relinks {paths : Lodash.Paths}
    (cmp : object → object → bool)
    (O : list object) (orm : ORM) (tx : Transaction) (SetModel : model_class)
    (rel : string) (idAttr : option string) (s : store) :
  reflexive_on O cmp → O ≠ [] → rel ≠ "" →
  Lodash.plain_key (default "id" idAttr) = true →
  ∃ newSet new_calls s',
    createNewSetWithItems orm tx SetModel
      (getUnchangedItems O O cmp) (getAddedItems O O cmp)
      (Some rel) idAttr s = (Resolved (Some newSet), s') ∧
    calls s' = calls s ++ new_calls ∧
    created_rows new_calls = [] ∧
    attached_ids new_calls =
      (λ item, default VUndefined (item !! default "id" idAttr))
      <$> Lodash.uniqWith O cmp.
Proof.
  intros Hrefl HO Hrel Hplain.
  destruct (diff_against_self cmp O Hrefl) as [-> ->].
  destruct (createNewSetWithItems_trace orm tx SetModel
              (Lodash.uniqWith O cmp) [] rel idAttr s Hrel)
    as (s' & Hrun & Hcalls).
  { intros [Hnil _]. by apply (uniqWith_nonempty cmp O). }
  eexists _, _, s'. split; [exact Hrun|]. split; [exact Hcalls|].
  rewrite created_rows_app, attached_ids_app, created_rows_setup_trace,
    attached_ids_setup_trace.
  simpl. rewrite app_nil_r. split; [done|].
  unfold Lodash.map_property. by rewrite Hplain.
Qed.

Lemma unchanged_collection_only_relinks_witness :
  ∃ newSet new_calls s',
    createNewSetWithItems (paths := Samples.paths) Samples.orm 7%nat
      "AliasSet"
      (getUnchangedItems
         [Samples.stored_alias; Samples.stored_alias_again;
          Samples.stored_other_alias]
         [Samples.stored_alias; Samples.stored_alias_again;
          Samples.stored_other_alias]
         (getComparisonFunc ["name"]))
      (getAddedItems
         [Samples.stored_alias; Samples.stored_alias_again;
          Samples.stored_other_alias]
         [Samples.stored_alias; Samples.stored_alias_again;
          Samples.stored_other_alias]
         (getComparisonFunc ["name"]))
      (Some "aliases") None Samples.empty_store =
      (Resolved (Some newSet), s') ∧
    calls s' = calls Samples.empty_store ++ new_calls ∧
    created_rows new_calls = [] ∧
    attached_ids new_calls =
      (λ item, default VUndefined (item !! "id"))
      <$> Lodash.uniqWith
            [Samples.stored_alias; Samples.stored_alias_again;
             Samples.stored_other_alias]
            (getComparisonFunc ["name"]).
Proof.
  apply (unchanged_collection_only_relinks (paths := Samples.paths)
           (getComparisonFunc ["name"])
           [Samples.stored_alias; Samples.stored_alias_again;
            Samples.stored_other_alias]
           Samples.orm 7%nat "AliasSet" "aliases" None Samples.empty_store);
    [|discriminate | discriminate | reflexivity].
  apply getComparisonFunc_reflexive.
  repeat constructor; intros f Hf%list_elem_of_singleton; subst f;
    vm_compute; discriminate.
Defined.

(** Three stored aliases, two of them with the same name, saved without a
    change: the ids 1 and 3 of the distinct ones are attached. *)
Example relink_deduplicates :
  calls (createNewSetWithItems (paths := Samples.paths) Samples.orm 7%nat
           "AliasSet"
           (getUnchangedItems
              [Samples.stored_alias; Samples.stored_alias_again;
               Samples.stored_other_alias]
              [Samples.stored_alias; Samples.stored_alias_again;
               Samples.stored_other_alias]
              (getComparisonFunc ["name"]))
           (getAddedItems
              [Samples.stored_alias; Samples.stored_alias_again;
               Samples.stored_other_alias]
              [Samples.stored_alias; Samples.stored_alias_again;
               Samples.stored_other_alias]
              (getComparisonFunc ["name"]))
           (Some "aliases") None Samples.empty_store).2 =
  [ ModelSave "AliasSet" ∅ None 7%nat 1;
    CollectionFetch (VNum 1) "aliases" 7%nat;
    CollectionAttach (VNum 1) "aliases" [VNum 1; VNum 3] 7%nat ].
Proof. vm_compute. reflexivity. Qed.

(** * Entity helpers *)

Lemma pick_keys_lookup (obj : object) (keys : list string) (k : string) :
  pick_keys obj keys !! k = if bool_decide (k ∈ keys) then obj !! k else None.
Proof.
  unfold pick_keys.
  assert (∀ acc : object,
            foldl (λ result key,
                     match obj !! key with
                     | Some v => <[key := v]> result
                     | None => result
                     end) acc keys !! k =
            match (if bool_decide (k ∈ keys) then obj !! k else None) with
            | Some v => Some v
            | None => acc !! k
            end) as Hgen.
  { induction keys as [|key keys IH]; intros acc; simpl; [done|].
    rewrite IH. destruct (decide (k = key)) as [->|Hne].
    - rewrite (bool_decide_true (key ∈ key :: keys)) by left.
      case_bool_decide; destruct (obj !! key) eqn:Hkey; try done.
      by rewrite lookup_insert_eq.
    - assert (k ∈ key :: keys ↔ k ∈ keys) as Hiff by set_solver.
      rewrite (bool_decide_ext _ _ Hiff).
      destruct (if bool_decide (k ∈ keys) then obj !! k else None); [done|].
      destruct (obj !! key); [by rewrite lookup_insert_ne | done]. }
  rewrite Hgen. rewrite lookup_empty.
  by destruct (if bool_decide (k ∈ keys) then obj !! k else None).
Qed.

(** X18.  [getAdditionalEntityProps] returns [null] exactly for the
    entity types other than Author, Edition, Publisher, EditionGroup,
    Work and Series, whatever the entity data. *)
Theorem additional_props_null_iff (parseDate : value → list value)
    (entityData : object) (entityType : string) :
  getAdditionalEntityProps parseDate entityData entityType = None ↔
  entityType ∉ entity_types.
Proof.
  unfold getAdditionalEntityProps, entity_types.
  repeat (case_bool_decide; simpl; [subst; split; [done | set_solver]|]).
  split; [|done]. intros _.
  rewrite !elem_of_cons, elem_of_nil. naive_solver.
Qed.

(** X19.  For an Edition, EditionGroup, Work or Series the result holds
    the fields of the type's list that the entity data has, with the
    values they have there, and no other field. *)
Theorem additional_props_picked (parseDate : value → list value)
    (entityData : object) (entityType : string) :
  entityType ∈ ["Edition"; "EditionGroup"; "Work"; "Series"] →
  ∃ props,
    getAdditionalEntityProps parseDate entityData entityType = Some props ∧
    ∀ k, props !! k =
         if bool_decide (k ∈ picked_fields entityType)
         then entityData !! k else None.
Proof.
  rewrite !elem_of_cons, elem_of_nil.
  intros [->|[->|[->|[->|[]]]]]; eexists; (split; [reflexivity|]);
    intros k; apply pick_keys_lookup.
Qed.

Lemma additional_props_picked_witness :
  ∃ props,
    getAdditionalEntityProps (λ _, []) Samples.edition_data "Edition" =
      Some props ∧
    ∀ k, props !! k =
         if bool_decide (k ∈ picked_fields "Edition")
         then Samples.edition_data !! k else None.
Proof. apply additional_props_picked. left. Defined.

(** X20.  For an Author the result always has the same thirteen fields
    and for a Publisher the same eleven, whether or not the entity data
    has them; a field the data lacks is there and holds [undefined]. *)
Theorem additional_props_fixed_fields (parseDate : value → list value)
    (entityData : object) :
  (∃ props,
     getAdditionalEntityProps parseDate entityData "Author" = Some props ∧
     dom props =
       list_to_set
         ["beginAreaId"; "beginDate"; "beginDay"; "beginMonth"; "beginYear";
          "endAreaId"; "endDate"; "endDay"; "endMonth"; "endYear";
          "ended"; "genderId"; "typeId"] ∧
     ∀ k, k ∈ ["beginAreaId"; "beginDate"; "endAreaId"; "endDate"; "ended";
               "genderId"; "typeId"] →
          props !! k = Some (get entityData k)) ∧
  (∃ props,
     getAdditionalEntityProps parseDate entityData "Publisher" = Some props ∧
     dom props =
       list_to_set
         ["areaId"; "beginDate"; "beginDay"; "beginMonth"; "beginYear";
          "endDate"; "endDay"; "endMonth"; "endYear"; "ended"; "typeId"] ∧
     ∀ k, k ∈ ["areaId"; "beginDate"; "endDate"; "ended"; "typeId"] →
          props !! k = Some (get entityData k)).
Proof.
  split; eexists; (split; [reflexivity|]); split.
  - rewrite !dom_insert_L, dom_singleton_L. simpl. set_solver.
  - intros k Hk. rewrite !elem_of_cons, elem_of_nil in Hk.
    destruct Hk as [->|[->|[->|[->|[->|[->|[->|[]]]]]]]]; by simplify_map_eq.
  - rewrite !dom_insert_L, dom_singleton_L. simpl. set_solver.
  - intros k Hk. rewrite !elem_of_cons, elem_of_nil in Hk.
    destruct Hk as [->|[->|[->|[->|[->|[]]]]]]; by simplify_map_eq.
Qed.

Section Redirects.
Context (raw : raw_query → option (list string)).
Implicit Types (bbid final : string) (hops : list string).
Implicit Types (transacting : option Transaction).

Lemma redirect_step_none fuel bbid transacting :
  redirect_of raw transacting bbid = None →
  recursivelyGetRedirectBBID raw (S fuel) bbid transacting =
  ([RawQuery transacting (redirectSQLQuery bbid)], Some bbid).
Proof.
  unfold redirect_of. simpl.
  by destruct (raw (RawQuery transacting (redirectSQLQuery bbid)))
    as [[|target rows]|].
Qed.

Lemma redirect_step_some fuel bbid transacting next :
  redirect_of raw transacting bbid = Some next →
  recursivelyGetRedirectBBID raw (S fuel) bbid transacting =
  (RawQuery transacting (redirectSQLQuery bbid)
   :: (recursivelyGetRedirectBBID raw fuel next None).1,
   (recursivelyGetRedirectBBID raw fuel next None).2).
Proof.
  unfold redirect_of. simpl.
  destruct (raw (RawQuery transacting (redirectSQLQuery bbid)))
    as [[|target rows]|]; try done.
  intros [= ->]. by destruct (recursivelyGetRedirectBBID raw fuel next None).
Qed.

Lemma redirect_of_cases transacting bbid :
  redirect_of raw transacting bbid = None ∨
  ∃ next, redirect_of raw transacting bbid = Some next.
Proof. destruct (redirect_of raw transacting bbid); eauto. Qed.
End Redirects.

(** X21.  When [bbid] redirects through a chain of bbids that ends at one
    without a redirect, [recursivelyGetRedirectBBID] returns that last
    bbid (enough fuel standing for the recursion getting that far), after
    one query per bbid of the chain. *)
Theorem redirect_chain_followed (raw : raw_query → option (list string))
    (hops : list string) (fuel : nat) (bbid final : string)
    (transacting : option Transaction) :
  redirect_chain raw transacting bbid hops final →
  (length hops < fuel)%nat →
  recursivelyGetRedirectBBID raw fuel bbid transacting =
  (RawQuery transacting (redirectSQLQuery bbid)
   :: ((λ b, RawQuery None (redirectSQLQuery b)) <$> hops),
   Some final).
Proof.
  revert fuel bbid transacting.
  induction hops as [|next hops IH]; intros fuel bbid transacting Hchain Hfuel;
    (destruct fuel as [|fuel]; [simpl in Hfuel; lia|]).
  - destruct Hchain as [Hnone ->]. by apply redirect_step_none.
  - destruct Hchain as [Hnext Hchain].
    rewrite (redirect_step_some raw fuel bbid transacting next Hnext).
    rewrite (IH fuel next None Hchain) by (simpl in Hfuel; lia). done.
Qed.

Lemma redirect_chain_followed_witness :
  recursivelyGetRedirectBBID Samples.redirects 5 "a" (Some 7%nat) =
  (RawQuery (Some 7%nat) (redirectSQLQuery "a")
   :: ((λ b, RawQuery None (redirectSQLQuery b)) <$> ["b"; "c"]),
   Some "c").
Proof.
  apply redirect_chain_followed; [|simpl; lia].
  repeat split; vm_compute; reflexivity.
Defined.

(** X22.  The bbid [recursivelyGetRedirectBBID] returns is one that has
    no redirect: the last query sent asked for its redirect and found no
    row. *)
Theorem redirect_result_is_final (raw : raw_query → option (list string))
    (fuel : nat) (bbid final : string) (transacting : option Transaction)
    (queries : list raw_query) :
  recursivelyGetRedirectBBID raw fuel bbid transacting =
    (queries, Some final) →
  ∃ query,
    last queries = Some query ∧
    query_sql query = redirectSQLQuery final ∧
    redirect_of raw (query_connection query) final = None.
Proof.
  revert bbid transacting queries.
  induction fuel as [|fuel IH]; intros bbid transacting queries; [done|].
  destruct (redirect_of_cases raw transacting bbid) as [Hnone|[next Hnext]].
  - rewrite redirect_step_none by done. intros [= <- <-].
    eexists. split; [reflexivity|]. by split.
  - rewrite (redirect_step_some raw fuel bbid transacting next Hnext).
    destruct (recursivelyGetRedirectBBID raw fuel next None)
      as [queries' result] eqn:Hrec.
    simpl. intros [= <- ->].
    destruct (IH next None queries' Hrec) as (query & Hlast & Hsql & Hfinal).
    exists query. split; [|done].
    destruct queries' as [|q queries']; [done|]. exact Hlast.
Qed.

Lemma redirect_result_is_final_witness :
  ∃ query,
    last [RawQuery (Some 7%nat) (redirectSQLQuery "b");
          RawQuery None (redirectSQLQuery "c")] = Some query ∧
    query_sql query = redirectSQLQuery "c" ∧
    redirect_of Samples.redirects (query_connection query) "c" = None.
Proof.
  apply (redirect_result_is_final Samples.redirects 3 "b" "c" (Some 7%nat)).
  vm_compute. reflexivity.
Defined.

(** X23.  Only the first query of [recursivelyGetRedirectBBID] goes
    through the transaction it was given: the recursive calls pass none
    on, so every later query goes through the default connection. *)
Theorem redirect_queries_leave_transaction
    (raw : raw_query → option (list string)) (fuel : nat) (bbid : string)
    (transacting : option Transaction) :
  let queries := (recursivelyGetRedirectBBID raw fuel bbid transacting).1 in
  head queries =
    (if fuel is O then None
     else Some (RawQuery transacting (redirectSQLQuery bbid))) ∧
  Forall (λ query, query_connection query = None) (tail queries).
Proof.
  cbv zeta. revert bbid transacting.
  induction fuel as [|fuel IH]; intros bbid transacting; [by split|].
  destruct (redirect_of_cases raw transacting bbid) as [Hnone|[next Hnext]].
  - rewrite redirect_step_none by done. by split.
  - rewrite (redirect_step_some raw fuel bbid transacting next Hnext).
    cbn [fst head tail]. split; [done|].
    destruct (IH next None) as [Hhead Htail].
    destruct (recursivelyGetRedirectBBID raw fuel next None).1
      as [|q queries]; [done|].
    constructor; [|exact Htail].
    destruct fuel; [done|]. by injection Hhead as ->.
Qed.

(** X24.  On a redirect cycle [recursivelyGetRedirectBBID] never returns:
    when every bbid of a set redirects to a bbid of the set, a call on a
    bbid of the set returns nothing, however far the recursion is let
    run. *)
Theorem redirect_cycle_never_returns
    (raw : raw_query → option (list string)) (cycle : list string)
    (fuel : nat) (bbid : string) (transacting : option Transaction) :
  (∀ b connection, b ∈ cycle →
     ∃ next, redirect_of raw connection b = Some next ∧ next ∈ cycle) →
  bbid ∈ cycle →
  (recursivelyGetRedirectBBID raw fuel bbid transacting).2 = None.
Proof.
  intros Hcycle. revert bbid transacting.
  induction fuel as [|fuel IH]; intros bbid transacting Hin; [done|].
  destruct (Hcycle bbid transacting Hin) as (next & Hnext & Hin').
  rewrite (redirect_step_some raw fuel bbid transacting next Hnext).
  by apply IH.
Qed.

Lemma redirect_cycle_never_returns_witness :
  (recursivelyGetRedirectBBID Samples.redirects 100 "d" None).2 = None.
Proof.
  apply (redirect_cycle_never_returns Samples.redirects ["d"]); [|left].
  intros b connection Hb%list_elem_of_singleton. subst b.
  exists "d". split; [vm_compute; reflexivity | left].
Defined.

(** * Deleting an editor *)

(** X25.  [deleteEditorByMetaBrainzID] resolves to [true] exactly when
    the lookup by MetaBrainz id comes back with a first row whose id is
    not [null].  When it resolves to [false] the lookup is the only query
    it has run.  When the id found is the number n, it resolves to [true]
    after the lookup, the update of the rows of [bookbrainz.editor] with
    [editor_id] n (area and gender set to [null], the bio emptied, the
    cached name set to the deleted mark, the name to Deleted Editor
    followed by the number sign and n), and the deletion of the rows of
    [bookbrainz.editor__language] with [editor_id] n. *)
Theorem deleteEditor_writes_iff_found (rows_of : knex_query → list object)
    (metabrainzUserID : value) :
  let lookup :=
    KnexSelect "bookbrainz.editor" "id"
      [("metabrainz_user_id", metabrainzUserID)] in
  let found := head (rows_of lookup) in
  let '(queries, deleted) :=
    deleteEditorByMetaBrainzID rows_of metabrainzUserID in
  (deleted = true ↔
   ∃ row, found = Some row ∧ default VUndefined (row !! "id") ≠ VNull) ∧
  (deleted = false → queries = [lookup]) ∧
  (∀ row n, found = Some row → row !! "id" = Some (VNum n) →
     deleted = true ∧
     queries =
       [ lookup;
         KnexUpdate "bookbrainz.editor" [("editor_id", VNum n)]
           [("area_id", VNull); ("bio", VStr "");
            ("cached_metabrainz_name", VStr "<deleted>");
            ("gender_id", VNull);
            ("name", VStr ("Deleted Editor #" +:+ pretty n))];
         KnexDel "bookbrainz.editor__language" [("editor_id", VNum n)] ]).
Proof.
  unfold deleteEditorByMetaBrainzID, getEditorIDByMetaBrainzID_query.
  cbv zeta.
  destruct (rows_of (KnexSelect "bookbrainz.editor" "id"
                       [("metabrainz_user_id", metabrainzUserID)]))
    as [|row rows]; simpl.
  { split; [|split]; [|done|done]. split; [done|]. by intros (row & ? & _). }
  unfold get. destruct (row !! "id") as [id|] eqn:Hid; simpl.
  2:{ split; [|split]; [|done|].
      - split; [intros _; exists row; by rewrite Hid|done].
      - intros row' n' [= <-] Hn. by rewrite Hid in Hn. }
  destruct (strict_eq id VNull) eqn:Hnull.
  - assert (id = VNull) as -> by (by destruct id).
    split; [|split]; [|done|].
    + split; [done|]. intros (row' & [= <-] & Hne). by rewrite Hid in Hne.
    + intros row' n' [= <-] Hn. by rewrite Hid in Hn.
  - split; [|split]; [|done|].
    + split; [|done]. intros _. exists row. split; [done|].
      rewrite Hid. simpl. by intros ->.
    + intros row' n' [= <-] Hn. rewrite Hid in Hn. by injection Hn as ->.
Qed.

(** The editor with id 42 found for a MetaBrainz id: the three queries. *)
Example delete_editor_42 :
  deleteEditorByMetaBrainzID (λ _, [{[ "id" := VNum 42 ]}]) (VNum 7) =
  ([ KnexSelect "bookbrainz.editor" "id" [("metabrainz_user_id", VNum 7)];
     KnexUpdate "bookbrainz.editor" [("editor_id", VNum 42)]
       [("area_id", VNull); ("bio", VStr "");
        ("cached_metabrainz_name", VStr "<deleted>"); ("gender_id", VNull);
        ("name", VStr "Deleted Editor #42")];
     KnexDel "bookbrainz.editor__language" [("editor_id", VNum 42)] ],
   true).
Proof. vm_compute. reflexivity. Qed.
